(** * mockstep: a walking simulator for the Android emulator console

    A shallow embedding of the three Python modules of the repository
    ([terminal_graphs.py], [telnet.py], [mockstep.py]) followed by the
    properties proved about them.

    Conventions of the embedding.
    - A Python [float] is a primitive binary64 float; a Python [int] is a [Z].
      Where the source mixes both (the [(-1, 1)] range of the sine graph, the
      [(0, 9.8, 0)] reset triple) a value is a [num].
    - A Python [str] is a list of code points, [bytes] a list of bytes.
    - A computation that may raise returns a [result]; code that prints,
      talks to the console channel or can be interrupted runs in the monad
      [M] over a [world]. *)

From Stdlib Require Import ZArith Lia List String Ascii Floats Bool.
From Stdlib Require Import Strings.Byte.
From stdpp Require Import base list strings gmap.

Set Warnings "-inexact-float".
Local Open Scope Z_scope.

(* ===================================================================== *)
(** * Part I: the Python run time the program relies on                   *)
(* ===================================================================== *)

(** ** Exceptions and results *)

(** The exception classes the program can meet.  [KeyboardInterrupt] derives
    from [BaseException] only, so [except Exception] does not catch it. *)
Inductive exn : Set :=
  | ZeroDivisionError
  | OverflowError
  | ValueError
  | IndexError
  | KeyError
  | FileNotFoundError
  | OSError
  | TimeoutError
  | EOFError
  | KeyboardInterrupt.

Definition is_Exception (e : exn) : bool :=
  match e with
  | KeyboardInterrupt => false
  | _ => true
  end.

(** [OutOfFuel] is not a Python outcome: it marks a loop of the model that
    was cut while the Python loop would still be running.  No handler of the
    model catches it. *)
Inductive result (A : Type) : Type :=
  | Ok (a : A)
  | Raise (e : exn)
  | OutOfFuel.
Arguments Ok {A} a.
Arguments Raise {A} e.
Arguments OutOfFuel {A}.

Definition rbind {A B} (r : result A) (k : A -> result B) : result B :=
  match r with
  | Ok a => k a
  | Raise e => Raise e
  | OutOfFuel => OutOfFuel
  end.

Declare Scope result_scope.
Delimit Scope result_scope with result.
Notation "'do' x <- r ; k" := (rbind r (fun x => k))
  (at level 10, x name, r at level 100, k at level 200,
   format "'[v' 'do'  x  <-  r ; '/' k ']'") : result_scope.
Notation "'do' ' p <- r ; k" := (rbind r (fun p => k))
  (at level 10, p pattern, r at level 100, k at level 200) : result_scope.
Local Open Scope result_scope.

(** ** Numbers *)

Inductive num : Set :=
  | Int (z : Z)
  | Float (f : float).

(** Largest magnitude that still rounds to a finite binary64:
    [2^1024 - 2^970] is half-way between the largest double and [2^1024] and
    rounds (to even) up. *)
Definition FLOAT_LIMIT : Z := 2 ^ 1024 - 2 ^ 970.

(** [float(z)]: the nearest double, ties to even; [OverflowError] when the
    integer is too large. *)
Definition float_of_int (z : Z) : result float :=
  if FLOAT_LIMIT <=? Z.abs z then Raise OverflowError
  else Ok (SF2Prim (binary_normalize prec emax z 0 false)).

Definition to_float (x : num) : result float :=
  match x with
  | Int z => float_of_int z
  | Float f => Ok f
  end.

(** [a / b] on two ints: the correctly rounded quotient. *)
Definition int_truediv (a b : Z) : result float :=
  if b =? 0 then Raise ZeroDivisionError
  else if FLOAT_LIMIT * Z.abs b <=? Z.abs a then Raise OverflowError
  else
    let sign := xorb (a <? 0) (b <? 0) in
    if a =? 0 then Ok (SF2Prim (S754_zero sign))
    else
      let '(q, e, loc) := SFdiv_core_binary prec emax (Z.abs a) 0 (Z.abs b) 0 in
      Ok (SF2Prim (binary_round_aux prec emax sign q e loc)).

(** [x / y] on floats raises on a zero divisor (of either sign). *)
Definition float_truediv (x y : float) : result float :=
  if PrimFloat.is_zero y then Raise ZeroDivisionError
  else Ok (x / y)%float.

Definition num_add (x y : num) : result num :=
  match x, y with
  | Int a, Int b => Ok (Int (a + b))
  | _, _ => do a <- to_float x; do b <- to_float y; Ok (Float (a + b)%float)
  end.

Definition num_sub (x y : num) : result num :=
  match x, y with
  | Int a, Int b => Ok (Int (a - b))
  | _, _ => do a <- to_float x; do b <- to_float y; Ok (Float (a - b)%float)
  end.

Definition num_mul (x y : num) : result num :=
  match x, y with
  | Int a, Int b => Ok (Int (a * b))
  | _, _ => do a <- to_float x; do b <- to_float y; Ok (Float (a * b)%float)
  end.

Definition num_truediv (x y : num) : result num :=
  match x, y with
  | Int a, Int b => do q <- int_truediv a b; Ok (Float q)
  | _, _ =>
      do a <- to_float x; do b <- to_float y;
      do q <- float_truediv a b; Ok (Float q)
  end.

(** Comparison is exact, also between an int and a float; [None] when a NaN
    is involved (every ordering test is then false). *)
Definition compare_int_float (z : Z) (f : float) : option comparison :=
  match Prim2SF f with
  | S754_nan => None
  | S754_infinity s => Some (if s then Gt else Lt)
  | S754_zero _ => Some (z ?= 0)
  | S754_finite s m e =>
      let v := if s then Z.neg m else Z.pos m in
      Some (if 0 <=? e then z ?= v * 2 ^ e else z * 2 ^ (- e) ?= v)
  end.

Definition compare_float (x y : float) : option comparison :=
  match PrimFloat.compare x y with
  | FEq => Some Eq
  | FLt => Some Lt
  | FGt => Some Gt
  | FNotComparable => None
  end.

Definition num_compare (x y : num) : option comparison :=
  match x, y with
  | Int a, Int b => Some (a ?= b)
  | Int a, Float g => compare_int_float a g
  | Float f, Int b => option_map CompOpp (compare_int_float b f)
  | Float f, Float g => compare_float f g
  end.

Definition num_lt (x y : num) : bool :=
  match num_compare x y with Some Lt => true | _ => false end.
Definition num_gt (x y : num) : bool :=
  match num_compare x y with Some Gt => true | _ => false end.
Definition num_le (x y : num) : bool :=
  match num_compare x y with Some Lt | Some Eq => true | _ => false end.
Definition num_ge (x y : num) : bool :=
  match num_compare x y with Some Gt | Some Eq => true | _ => false end.

(** The builtins [min(a, b)] and [max(a, b)] keep the first argument unless
    the second is strictly smaller (larger). *)
Definition py_min (a b : num) : num := if num_lt b a then b else a.
Definition py_max (a b : num) : num := if num_gt b a then b else a.

Definition num_abs (x : num) : num :=
  match x with
  | Int z => Int (Z.abs z)
  | Float f => Float (PrimFloat.abs f)
  end.

(** [int(f)]: truncation towards zero. *)
Definition int_of_float (f : float) : result Z :=
  match Prim2SF f with
  | S754_nan => Raise ValueError
  | S754_infinity _ => Raise OverflowError
  | S754_zero _ => Ok 0
  | S754_finite s m e =>
      let a := if 0 <=? e then Z.pos m * 2 ^ e else Z.pos m / 2 ^ (- e) in
      Ok (if s then - a else a)
  end.

(** [round(f)] with one argument: the nearest integer, ties to even. *)
Definition round_half_even (n d : Z) : Z :=
  let q := n / d in
  let r := n mod d in
  match 2 * r ?= d with
  | Lt => q
  | Gt => q + 1
  | Eq => if Z.even q then q else q + 1
  end.

Definition round_float (f : float) : result Z :=
  match Prim2SF f with
  | S754_nan => Raise ValueError
  | S754_infinity _ => Raise OverflowError
  | S754_zero _ => Ok 0
  | S754_finite s m e =>
      let a := if 0 <=? e then Z.pos m * 2 ^ e
               else round_half_even (Z.pos m) (2 ^ (- e)) in
      Ok (if s then - a else a)
  end.

Definition py_int (x : num) : result Z :=
  match x with Int z => Ok z | Float f => int_of_float f end.
Definition py_round (x : num) : result Z :=
  match x with Int z => Ok z | Float f => round_float f end.

(** ** Text *)

(** A [str] is a sequence of code points, so that [len] and indexing count
    glyphs such as the trail markers as one position each. *)
Abbreviation str := (list N).
Abbreviation bytes := (list byte).

Definition b (s : string) : bytes := list_byte_of_string s.

(** String literals of the source are written as in the source and decoded
    from the UTF-8 bytes of the literal. *)
Fixpoint utf8_decode (bs : list N) (need : nat) (acc : N) : str :=
  match bs with
  | [] => []
  | x :: bs' =>
      match need with
      | O =>
          if (x <? 128)%N then x :: utf8_decode bs' 0 0%N
          else if (x <? 224)%N then utf8_decode bs' 1 (x - 192)%N
          else if (x <? 240)%N then utf8_decode bs' 2 (x - 224)%N
          else utf8_decode bs' 3 (x - 240)%N
      | S n =>
          let acc' := (acc * 64 + (x - 128))%N in
          match n with
          | O => acc' :: utf8_decode bs' 0 0%N
          | S _ => utf8_decode bs' n acc'
          end
      end
  end.

Definition u (s : string) : str :=
  utf8_decode (map Byte.to_N (list_byte_of_string s)) 0 0%N.

Definition byte_of_N (n : N) : byte := default x00 (Byte.of_N n).

(** [s.encode()]: UTF-8; a surrogate cannot be encoded
    ([UnicodeEncodeError], a [ValueError]). *)
Definition encode_char (c : N) : result bytes :=
  if (c <? 128)%N then Ok [byte_of_N c]
  else if (c <? 2048)%N then
    Ok [byte_of_N (192 + c / 64); byte_of_N (128 + c mod 64)]
  else if (55296 <=? c)%N && (c <? 57344)%N then Raise ValueError
  else if (c <? 65536)%N then
    Ok [byte_of_N (224 + c / 4096); byte_of_N (128 + (c / 64) mod 64);
        byte_of_N (128 + c mod 64)]
  else
    Ok [byte_of_N (240 + c / 262144); byte_of_N (128 + (c / 4096) mod 64);
        byte_of_N (128 + (c / 64) mod 64); byte_of_N (128 + c mod 64)].

Fixpoint encode (s : str) : result bytes :=
  match s with
  | [] => Ok []
  | c :: s' => do x <- encode_char c; do r <- encode s'; Ok (x ++ r)
  end.

(** [needle in haystack] on bytes. *)
Fixpoint starts_with (needle hay : bytes) : bool :=
  match needle, hay with
  | [], _ => true
  | _ :: _, [] => false
  | x :: n', y :: h' => Byte.eqb x y && starts_with n' h'
  end.

Fixpoint bytes_in (needle hay : bytes) : bool :=
  starts_with needle hay ||
  match hay with
  | [] => false
  | _ :: h' => bytes_in needle h'
  end.

(** ** Formatting numbers *)

Fixpoint str_of_uint (d : Decimal.uint) : str :=
  match d with
  | Decimal.Nil => []
  | Decimal.D0 d => 48%N :: str_of_uint d
  | Decimal.D1 d => 49%N :: str_of_uint d
  | Decimal.D2 d => 50%N :: str_of_uint d
  | Decimal.D3 d => 51%N :: str_of_uint d
  | Decimal.D4 d => 52%N :: str_of_uint d
  | Decimal.D5 d => 53%N :: str_of_uint d
  | Decimal.D6 d => 54%N :: str_of_uint d
  | Decimal.D7 d => 55%N :: str_of_uint d
  | Decimal.D8 d => 56%N :: str_of_uint d
  | Decimal.D9 d => 57%N :: str_of_uint d
  end.

(** Decimal digits of a natural number, ["0"] for zero. *)
Definition decimal (n : Z) : str := str_of_uint (N.to_uint (Z.to_N n)).

Definition digit (n : Z) : N := (48 + Z.to_N n)%N.

(** The sign and the body of a float under the presentation [.2f]: the exact
    binary value rounded to two decimals, ties to even. *)
Definition fixed2 (f : float) : bool * str :=
  match Prim2SF f with
  | S754_nan => (false, u "nan")
  | S754_infinity s => (s, u "inf")
  | S754_zero s => (s, u "0.00")
  | S754_finite s m e =>
      let n := if 0 <=? e then Z.pos m * 2 ^ e * 100
               else round_half_even (Z.pos m * 100) (2 ^ (- e)) in
      (s, decimal (n / 100) ++ u "." ++
          [digit ((n mod 100) / 10); digit (n mod 10)])
  end.

Definition pad_left (width : nat) (s : str) : str :=
  replicate (width - length s) 32%N ++ s.

(** [f"{x:.2f}"], [f"{x:5.2f}"] and [f"{x:+.2f}"]; an int is converted to a
    float first. *)
Definition format_2f (x : num) : result str :=
  do f <- to_float x;
  let '(s, body) := fixed2 f in
  Ok ((if s then u "-" else []) ++ body).

Definition format_5_2f (x : num) : result str :=
  do t <- format_2f x; Ok (pad_left 5 t).

Definition format_plus_2f (x : num) : result str :=
  do f <- to_float x;
  let '(s, body) := fixed2 f in
  Ok ((if s then u "-" else u "+") ++ body).

(** [c * n] on strings: empty when [n] is not positive. *)
Definition str_repeat (s : str) (n : Z) : str :=
  concat (replicate (Z.to_nat n) s).

(** ** Lists *)

(** [l[i]] and [l[i] = v] with Python's negative indices; out of range is an
    [IndexError]. *)
Definition list_index {A} (l : list A) (i : Z) : result nat :=
  let n := Z.of_nat (length l) in
  if (0 <=? i) && (i <? n) then Ok (Z.to_nat i)
  else if (- n <=? i) && (i <? 0) then Ok (Z.to_nat (n + i))
  else Raise IndexError.

Definition list_get {A} (l : list A) (i : Z) : result A :=
  do k <- list_index l i;
  match l !! k with
  | Some x => Ok x
  | None => Raise IndexError
  end.

Definition list_set {A} (l : list A) (i : Z) (v : A) : result (list A) :=
  do k <- list_index l i; Ok (<[k := v]> l).

(** The bound of a slice [l[i:]] or [l[:i]]: negative bounds count from the
    end, and everything is clipped to the list. *)
Definition slice_bound {A} (l : list A) (i : Z) : nat :=
  let n := Z.of_nat (length l) in
  Z.to_nat (if i <? 0 then Z.max 0 (n + i) else Z.min i n).

Definition slice_from {A} (l : list A) (i : Z) : list A := drop (slice_bound l i) l.
Definition slice_to {A} (l : list A) (i : Z) : list A := take (slice_bound l i) l.

(** [a % b]: the sign of the result follows the divisor. *)
Definition py_mod (a m : Z) : result Z :=
  if m =? 0 then Raise ZeroDivisionError else Ok (a mod m).

(** [d[k]] on a dict with string keys. *)
Definition dict_get {V} (d : gmap string V) (k : string) : result V :=
  match d !! k with
  | Some v => Ok v
  | None => Raise KeyError
  end.

(** [str(z)] and [f"{z}"] on an int. *)
Definition str_of_int (z : Z) : str :=
  if z <? 0 then u "-" ++ decimal (- z) else decimal z.

(** [[v] * n] and [range(n)]: empty when [n] is not positive. *)
Definition list_repeat {A} (v : A) (n : Z) : list A := replicate (Z.to_nat n) v.
Definition range (n : Z) : list Z := map Z.of_nat (seq 0 (Z.to_nat n)).

(** ** The world: standard output, the console channel, the user *)

(** What the process does to the console channel, in order. *)
Inductive chan_event : Set :=
  | EvOpen (host : str) (port : Z) (timeout : Z)
  | EvReadUntil (expected : bytes) (timeout : Z)
  | EvWrite (data : bytes)
  | EvClose.

(** What the other side answers to one channel operation: the bytes a read
    returns (ignored for the other operations), or an error, which is always
    an [Exception]. *)
Inductive io_error : Set := ConnectionLost | TimedOut | EndOfFile.

Definition exn_of_io_error (e : io_error) : exn :=
  match e with
  | ConnectionLost => OSError
  | TimedOut => TimeoutError
  | EndOfFile => EOFError
  end.

Inductive reply : Set :=
  | Answers (data : bytes)
  | Fails (e : io_error).

(** - [w_out]: what was written to standard output, one entry per [print];
    - [w_chan]: the channel operations so far;
    - [w_intr]: how many more interruptible operations complete before the
      user presses Ctrl-C ([None]: the user does not). *)
Record world : Set := mkWorld {
  w_out : list str;
  w_chan : list chan_event;
  w_intr : option nat
}.

Definition M (A : Type) : Type := world -> result A * world.

Definition ret {A} (a : A) : M A := fun w => (Ok a, w).
Definition raise {A} (e : exn) : M A := fun w => (Raise e, w).
Definition lift {A} (r : result A) : M A := fun w => (r, w).

Definition bind {A B} (m : M A) (k : A -> M B) : M B :=
  fun w =>
    match m w with
    | (Ok a, w') => k a w'
    | (Raise e, w') => (Raise e, w')
    | (OutOfFuel, w') => (OutOfFuel, w')
    end.

Declare Scope M_scope.
Delimit Scope M_scope with M.
Notation "'run' x <- m ; k" := (bind m (fun x => k))
  (at level 10, x name, m at level 100, k at level 200) : M_scope.
Notation "'run' ' p <- m ; k" := (bind m (fun p => k))
  (at level 10, p pattern, m at level 100, k at level 200) : M_scope.
Notation "m ;; k" := (bind m (fun _ => k))
  (at level 100, right associativity) : M_scope.

(** [try: body / except Exception as e: handler e]. *)
Definition try_except_Exception {A} (body : M A) (handler : exn -> M A) : M A :=
  fun w =>
    match body w with
    | (Raise e, w') => if is_Exception e then handler e w' else (Raise e, w')
    | r => r
    end.

(** [try: body / except KeyboardInterrupt: handler]. *)
Definition try_except_KeyboardInterrupt {A} (body : M A) (handler : M A) : M A :=
  fun w =>
    match body w with
    | (Raise KeyboardInterrupt, w') => handler w'
    | r => r
    end.

(** [try: body / finally: cleanup]: the cleanup runs however the body ended,
    and the body's outcome stands unless the cleanup itself raises. *)
Definition try_finally {A} (body : M A) (cleanup : M unit) : M A :=
  fun w =>
    match body w with
    | (OutOfFuel, w') => (OutOfFuel, w')
    | (r, w') =>
        match cleanup w' with
        | (Ok _, w'') => (r, w'')
        | (Raise e, w'') => (Raise e, w'')
        | (OutOfFuel, w'') => (OutOfFuel, w'')
        end
    end.

(** [print(s, end=e)]. *)
Definition NL : N := 10%N.
Definition print_end (s e : str) : M unit :=
  fun w => (Ok tt, mkWorld (w_out w ++ [s ++ e]) (w_chan w) (w_intr w)).
Definition print (s : str) : M unit := print_end s [NL].

(** A point where a pending Ctrl-C is delivered: a blocking call. *)
Definition interruptible : M unit :=
  fun w =>
    match w_intr w with
    | None => (Ok tt, w)
    | Some O => (Raise KeyboardInterrupt, mkWorld (w_out w) (w_chan w) None)
    | Some (S n) => (Ok tt, mkWorld (w_out w) (w_chan w) (Some n))
    end.

(** One operation on the channel: it is recorded, and the other side's reply
    to the [n]-th operation (counting from 0) decides how it ends. *)
Definition channel_op (env : nat -> reply) (ev : chan_event) : M bytes :=
  (interruptible ;;
   fun w =>
     let w' := mkWorld (w_out w) (w_chan w ++ [ev]) (w_intr w) in
     match env (length (w_chan w)) with
     | Answers data => (Ok data, w')
     | Fails e => (Raise (exn_of_io_error e), w')
     end)%M.

(* ===================================================================== *)
(** * Part II: terminal_graphs.py                                         *)
(* ===================================================================== *)

Definition float_ge (x y : float) : bool := (y <=? x)%float.
Definition float_gt (x y : float) : bool := (y <? x)%float.

(** ** class ShoeAnimation *)

Record ShoeAnimation : Type := mkShoeAnimation {
  shoe_states : gmap string str;
  landing_message : str
}.

Definition ShoeAnimation_init : ShoeAnimation :=
  {| shoe_states :=
       <["ready" := u "👟 Step: [▬▬▬] Ready"]>
       (<["lifting" := u "👟 Step: [▬▬▬] Lifting..."]>
       (<["striding" := u "👟 Step: [▬▬▬] ↗ Striding"]>
       (<["landing" := u "👟 Step: [▬▬▬] ↘ Landing!"]> ∅)));
     landing_message := u "🦶 STEP LANDED! 🦶" |}.

Definition get_shoe_state (self : ShoeAnimation)
    (sine_value : float) (step_detected : bool) : result str :=
  if step_detected && float_ge sine_value 0.5 then
    dict_get (shoe_states self) "landing"
  else if float_ge sine_value 0.3 then
    dict_get (shoe_states self) "striding"
  else if float_ge sine_value (-0.3) then
    dict_get (shoe_states self) "lifting"
  else
    dict_get (shoe_states self) "ready".

Definition get_landing_line (self : ShoeAnimation) (step_detected : bool) : str :=
  if step_detected then landing_message self else [].

(** ** class DataBuffer *)

Record DataBuffer : Set := mkDataBuffer {
  size : Z;
  buffer : list float;
  index : Z;
  has_data : bool
}.

Definition DataBuffer_init (size : Z) : DataBuffer :=
  {| size := size;
     buffer := list_repeat 0%float size;
     index := 0;
     has_data := false |}.

Definition add_value (self : DataBuffer) (value : float) : result DataBuffer :=
  do buffer' <- list_set (buffer self) (index self) value;
  do index' <- py_mod (index self + 1) (size self);
  Ok {| size := size self; buffer := buffer'; index := index'; has_data := true |}.

Definition get_display_values (self : DataBuffer) : list float :=
  slice_from (buffer self) (index self) ++ slice_to (buffer self) (index self).

Definition get_current_value (self : DataBuffer) : result (option float) :=
  if negb (has_data self) then Ok None
  else
    do current_index <- py_mod (index self - 1) (size self);
    do v <- list_get (buffer self) current_index;
    Ok (Some v).

(** ** class BarGraph *)

Record BarGraph : Set := mkBarGraph {
  bar_width : Z;
  bar_min_val : num;
  bar_max_val : num;
  bar_label : str
}.

Definition BarGraph_init (width : Z) (value_range : num * num) (label : str)
    : BarGraph :=
  {| bar_width := width;
     bar_min_val := fst value_range;
     bar_max_val := snd value_range;
     bar_label := label |}.

(** ** class SineWaveGraph *)

Record SineWaveGraph : Set := mkSineWaveGraph {
  sine_width : Z;
  sine_height : Z;
  sine_min_val : num;
  sine_max_val : num;
  sine_buffer : DataBuffer;
  row_labels : list str
}.

(** The body of the loop of [__init__] for row [i]. *)
Definition row_label (min_val max_val : num) (height i : Z) : result str :=
  do span <- num_sub max_val min_val;
  do scaled <- num_mul (Int i) span;
  do offset <- num_truediv scaled (Int (height - 1));
  do row_value <- num_sub max_val offset;
  if num_lt (num_abs row_value) (Float 0.01) then Ok (u " 0.0 |")
  else do t <- format_5_2f row_value; Ok (t ++ u "|").

(** A [for] loop that builds a list by [append], stopping at the first
    exception. *)
Fixpoint for_append {A B} (f : A -> result B) (l : list A) : result (list B) :=
  match l with
  | [] => Ok []
  | x :: l' => do y <- f x; do ys <- for_append f l'; Ok (y :: ys)
  end.

Definition SineWaveGraph_init (width height : Z) (value_range : num * num)
    : result SineWaveGraph :=
  let '(min_val, max_val) := value_range in
  do labels <- for_append (row_label min_val max_val height) (range height);
  Ok {| sine_width := width;
        sine_height := height;
        sine_min_val := min_val;
        sine_max_val := max_val;
        sine_buffer := DataBuffer_init width;
        row_labels := labels |}.

Definition _value_to_row (self : SineWaveGraph) (value : float) : result num :=
  let clamped := py_max (sine_min_val self) (py_min (Float value) (sine_max_val self)) in
  do shifted <- num_sub clamped (sine_min_val self);
  do span <- num_sub (sine_max_val self) (sine_min_val self);
  do normalized <- num_truediv shifted span;
  do inverted <- num_sub (Int 1) normalized;
  num_mul inverted (Int (sine_height self - 1)).

(** ** class DualGraph *)

Record DualGraph : Type := mkDualGraph {
  bar_graph : BarGraph;
  sine_graph : SineWaveGraph;
  shoe_animation : ShoeAnimation;
  first_render : bool;
  total_lines : Z
}.

Definition DualGraph_init (bar_width : Z) (bar_range : num * num)
    (sine_width sine_height : Z) (sine_range : num * num) : result DualGraph :=
  let bar := BarGraph_init bar_width bar_range (u "Accel") in
  do sine <- SineWaveGraph_init sine_width sine_height sine_range;
  Ok {| bar_graph := bar;
        sine_graph := sine;
        shoe_animation := ShoeAnimation_init;
        first_render := true;
        total_lines := 4 + sine_height |}.

Definition ESC : N := 27%N.
Definition CLEAR_LINE : str := ESC :: u "[2K".

(** The trail marker for a sample of the given age. *)
Definition trail_char (age : Z) : N :=
  if age =? 0 then 9679%N        (* ● *)
  else if age <? 5 then 8226%N   (* • *)
  else if age <? 15 then 183%N   (* · *)
  else 46%N.                     (* . *)

(** The body of the plotting loop of [_render_sine_wave] for the sample
    [value] at position [i] of [n]. *)
Definition plot_point (g : SineWaveGraph) (n i : Z) (value : float)
    (rows : list str) : result (list str) :=
  do target_row <- _value_to_row g value;
  do row_idx <- py_round target_row;
  if (0 <=? row_idx) && (row_idx <? sine_height g) then
    let age := n - i - 1 in
    let char := trail_char age in
    do label0 <- list_get (row_labels g) 0;
    let pos := Z.of_nat (length label0) + i in
    do row <- list_get rows row_idx;
    if pos <? Z.of_nat (length row) then
      do row_list <- list_set row pos char;
      list_set rows row_idx row_list
    else Ok rows
  else Ok rows.

Fixpoint plot_points (g : SineWaveGraph) (n i : Z) (values : list float)
    (rows : list str) : result (list str) :=
  match values with
  | [] => Ok rows
  | value :: rest =>
      do rows' <- plot_point g n i value rows;
      plot_points g n (i + 1) rest rows'
  end.

(** The rows of the sine graph as [_render_sine_wave] builds them before
    printing. *)
Definition sine_rows (g : SineWaveGraph) : result (list str) :=
  let values := get_display_values (sine_buffer g) in
  let rows := map (fun label => label ++ str_repeat (u " ") (sine_width g))
                  (row_labels g) in
  do rows <-
    (if has_data (sine_buffer g)
     then plot_points g (Z.of_nat (length values)) 0 values rows
     else Ok rows);
  do current_value <- get_current_value (sine_buffer g);
  match current_value with
  | None => Ok rows
  | Some v =>
      do target <- _value_to_row g v;
      do current_row <- py_round target;
      if (0 <=? current_row) && (current_row <? sine_height g) then
        do row <- list_get rows current_row;
        do t <- format_plus_2f (Float v);
        list_set rows current_row (row ++ u " ← Current: " ++ t)
      else Ok rows
  end.

Fixpoint print_rows (rows : list str) : M unit :=
  match rows with
  | [] => ret tt
  | row :: rest => (print_end CLEAR_LINE [] ;; print row ;; print_rows rest)%M
  end.

Definition _render_sine_wave (self : DualGraph) : M unit :=
  (run rows <- lift (sine_rows (sine_graph self)) ;
   print_rows rows)%M.

Definition with_buffer (g : SineWaveGraph) (buf : DataBuffer) : SineWaveGraph :=
  {| sine_width := sine_width g;
     sine_height := sine_height g;
     sine_min_val := sine_min_val g;
     sine_max_val := sine_max_val g;
     sine_buffer := buf;
     row_labels := row_labels g |}.

(** The length of the bar for [accel_value]. *)
Definition bar_length (bar : BarGraph) (accel_value : float) : result Z :=
  let clamped_value :=
    py_max (bar_min_val bar) (py_min (Float accel_value) (bar_max_val bar)) in
  do shifted <- num_sub clamped_value (bar_min_val bar);
  do span <- num_sub (bar_max_val bar) (bar_min_val bar);
  do normalized <- num_truediv shifted span;
  do scaled <- num_mul normalized (Int (bar_width bar));
  py_int scaled.

Definition plot (self : DualGraph) (accel_value sine_value : float)
    (step_impact : bool) : M DualGraph :=
  (run buf <- lift (add_value (sine_buffer (sine_graph self)) sine_value) ;
   let self :=
     {| bar_graph := bar_graph self;
        sine_graph := with_buffer (sine_graph self) buf;
        shoe_animation := shoe_animation self;
        first_render := first_render self;
        total_lines := total_lines self |} in
   (if negb (first_render self)
    then print_end (ESC :: u "[" ++ str_of_int (total_lines self) ++ u "A") []
    else ret tt) ;;
   print_end CLEAR_LINE [] ;;
   run len <- lift (bar_length (bar_graph self) accel_value) ;
   let bar := str_repeat (u "#") len in
   run t <- lift (format_5_2f (Float accel_value)) ;
   print (u "Accel: " ++ t ++ u " | " ++ bar) ;;
   print_end CLEAR_LINE [] ;;
   run shoe_state <- lift (get_shoe_state (shoe_animation self) sine_value step_impact) ;
   print shoe_state ;;
   print_end CLEAR_LINE [] ;;
   print (get_landing_line (shoe_animation self) step_impact) ;;
   print CLEAR_LINE ;;
   _render_sine_wave self ;;
   ret {| bar_graph := bar_graph self;
          sine_graph := sine_graph self;
          shoe_animation := shoe_animation self;
          first_render := false;
          total_lines := total_lines self |})%M.

(* ===================================================================== *)
(** * Part III: telnet.py                                                 *)
(* ===================================================================== *)

(** What the peer of a connected socket does from now on, as successive
    [recv] calls see it:
    - [Sends data next]: [data] arrives (a [recv] returns at most its buffer
      size of it);
    - [Stalls next]: nothing arrives within the timeout of the socket;
    - [Resets]: the connection breaks;
    - [Closed]: the peer has closed its end; [recv] returns [b""], now and on
      every later call. *)
Inductive peer : Set :=
  | Sends (data : bytes) (next : peer)
  | Stalls (next : peer)
  | Resets
  | Closed.

Record TelnetConnection : Set := mkTelnetConnection {
  sock : peer;
  sock_timeout : Z
}.

(** [sock.recv(bufsize)]. *)
Fixpoint recv (bufsize : nat) (p : peer) : result bytes * peer :=
  match p with
  | Sends data next =>
      match data with
      | [] => recv bufsize next
      | _ :: _ =>
          (Ok (take bufsize data),
           match drop bufsize data with
           | [] => next
           | rest => Sends rest next
           end)
      end
  | Stalls next => (Raise TimeoutError, next)
  | Resets => (Raise OSError, Resets)
  | Closed => (Ok [], Closed)
  end.

(** The [while] loop of [read_until]; [fuel] bounds the number of [recv]
    calls the model follows. *)
Fixpoint read_until_loop (fuel : nat) (expected data : bytes) (p : peer)
    : result bytes * peer :=
  if bytes_in expected data then (Ok data, p)
  else
    match fuel with
    | O => (OutOfFuel, p)
    | S fuel' =>
        match recv 4096 p with
        | (Ok chunk, p') => read_until_loop fuel' expected (data ++ chunk) p'
        | (Raise e, p') => (Raise e, p')
        | (OutOfFuel, p') => (OutOfFuel, p')
        end
    end.

Definition read_until (fuel : nat) (self : TelnetConnection)
    (expected : bytes) (timeout : Z) : result bytes * TelnetConnection :=
  let '(r, p) := read_until_loop fuel expected [] (sock self) in
  (r, {| sock := p; sock_timeout := timeout |}).

(* ===================================================================== *)
(** * Part IV: mockstep.py                                                *)
(* ===================================================================== *)

Definition AMPLITUDE : float := 2.0.
Definition Y_BASELINE : float := 9.8.

(** The handle of the [telnetlib.Telnet] object; the state of the one
    connection lives in the [world]. *)
Inductive Telnet : Set := TelnetHandle.

(** [not s] on an optional string: [None] and the empty string are false. *)
Definition falsy (s : option str) : bool :=
  match s with
  | None => true
  | Some [] => true
  | Some (_ :: _) => false
  end.

Section Mockstep.

(** What is outside the repository:
    - [env]: the reply of the emulator console to the [n]-th operation on
      the channel ([telnetlib] is the standard library's);
    - [exn_text]: the message of an exception, as [print(f"{e}")] shows it;
    - [libm_sin]: [math.sin] on a finite or NaN argument. *)
Variable env : nat -> reply.
Variable exn_text : exn -> str.
Variable libm_sin : float -> float.

Definition math_sin (x : float) : result float :=
  if PrimFloat.is_infinity x then Raise ValueError else Ok (libm_sin x).

Definition Telnet_open (host : str) (port : Z) (timeout : Z) : M Telnet :=
  (run _ <- channel_op env (EvOpen host port timeout) ; ret TelnetHandle)%M.
Definition Telnet_read_until (t : Telnet) (expected : bytes) (timeout : Z)
    : M bytes :=
  channel_op env (EvReadUntil expected timeout).
Definition Telnet_write (t : Telnet) (data : bytes) : M unit :=
  (run _ <- channel_op env (EvWrite data) ; ret tt)%M.
Definition Telnet_close (t : Telnet) : M unit :=
  fun w => (Ok tt, mkWorld (w_out w) (w_chan w ++ [EvClose]) (w_intr w)).

Definition connect_to_emulator (host : str) (port : Z)
    (auth_token : option str) : M (option Telnet) :=
  try_except_Exception
    (run emulator <- Telnet_open host port 10 ;
     run _ <- Telnet_read_until emulator (b "OK") 10 ;
     if falsy auth_token then
       print (u "Authentication token is missing...") ;;
       ret None
     else
       run command <- lift (encode (u "auth " ++ default [] auth_token ++ [NL])) ;
       Telnet_write emulator command ;;
       run response <- Telnet_read_until emulator (b "OK") 10 ;
       if bytes_in (b "KO") response then
         print (u "Authentication failed.") ;;
         ret None
       else
         print (u "Connected and authenticated with emulator on port "
                ++ str_of_int port ++ u ".") ;;
         ret (Some emulator))%M
    (fun e =>
       (print (u "An error occurred during connection: " ++ exn_text e) ;;
        ret None)%M).

Definition sensor_command (sensor : str) (x y z : num) : result str :=
  do tx <- format_2f x;
  do ty <- format_2f y;
  do tz <- format_2f z;
  Ok (u "sensor set " ++ sensor ++ u " " ++ tx ++ u ":" ++ ty ++ u ":" ++ tz
      ++ [NL]).

Definition set_sensor_data (emulator : Telnet) (sensor : str) (x y z : num)
    : M unit :=
  try_except_Exception
    (run command <- lift (sensor_command sensor x y z) ;
     run data <- lift (encode command) ;
     Telnet_write emulator data ;;
     run _ <- Telnet_read_until emulator (b "OK") 2 ;
     ret tt)%M
    (fun e =>
       print (u "An error occurred while setting " ++ sensor ++ u " data: "
              ++ exn_text e)).

Definition generate_walking_acceleration (step : Z)
    : result (float * float * float) :=
  let frequency := 1.25%float in
  let x := 0.0%float in
  do angle <- num_mul (Float frequency) (Int step);
  do angle <- to_float angle;
  do s <- math_sin angle;
  let y := (Y_BASELINE + AMPLITUDE * s)%float in
  let z := 0.0%float in
  Ok (x, y, z).

(** The variables of [run_simulation] that its loop updates. *)
Record loop_state : Type := mkLoopState {
  step_counter : Z;
  previous_y : float;
  was_rising : bool;
  dual_graph : DualGraph
}.

(** [time.sleep(0.1)]: only a point where an interruption can land. *)
Definition sleep : M unit := interruptible.

(** One iteration of the [while True] loop. *)
Definition loop_body (emulator : Telnet) (frequency : float) (st : loop_state)
    : M loop_state :=
  (run '(x, y, z) <- lift (generate_walking_acceleration (step_counter st)) ;
   set_sensor_data emulator (u "acceleration") (Float x) (Float y) (Float z) ;;
   run sine_value <- lift (do a <- num_mul (Float frequency) (Int (step_counter st));
                       do a <- to_float a;
                       math_sin a) ;
   let is_rising_now := float_gt y (previous_y st) in
   let step_detected := was_rising st && negb is_rising_now in
   interruptible ;;
   run dual_graph' <- plot (dual_graph st) y sine_value step_detected ;
   sleep ;;
   ret {| step_counter := step_counter st + 1;
          previous_y := y;
          was_rising := is_rising_now;
          dual_graph := dual_graph' |})%M.

(** [while True]: it ends by an exception only; [fuel] bounds the
    iterations the model follows. *)
Fixpoint while_True (fuel : nat) (emulator : Telnet) (frequency : float)
    (st : loop_state) : M unit :=
  match fuel with
  | O => fun w => (OutOfFuel, w)
  | S fuel' =>
      (run st' <- loop_body emulator frequency st ;
       while_True fuel' emulator frequency st')%M
  end.

Definition run_simulation (fuel : nat) (emulator : Telnet)
    (bar_width sine_width sine_height : Z) : M unit :=
  let step_counter := 0 in
  let previous_y := Y_BASELINE in
  let was_rising := false in
  let frequency := 1.25%float in
  (run dual_graph <- lift (DualGraph_init bar_width
                         (Float (Y_BASELINE - AMPLITUDE), Float (Y_BASELINE + AMPLITUDE))
                         sine_width sine_height (Int (-1), Int 1)) ;
   print (NL :: u "Simulating walking steps and displaying live graph...") ;;
   print (u "Display size: Bar=" ++ str_of_int bar_width ++ u ", Sine="
          ++ str_of_int sine_width ++ u "x" ++ str_of_int sine_height) ;;
   print (str_repeat (u "-") (Z.max (bar_width + 20) (sine_width + 20))) ;;
   print [] ;;
   try_finally
     (try_except_KeyboardInterrupt
        (while_True fuel emulator frequency
           {| step_counter := step_counter;
              previous_y := previous_y;
              was_rising := was_rising;
              dual_graph := dual_graph |})
        (print (NL :: NL :: u "Stopping simulation.")))
     (print (u "Resetting sensor data.") ;;
      set_sensor_data emulator (u "acceleration") (Int 0) (Float 9.8) (Int 0) ;;
      Telnet_close emulator ;;
      print (u "Telnet connection closed.")))%M.

(** ** main *)

(** The parsed command line. *)
Record args : Set := mkArgs {
  arg_port : Z;
  arg_token : option str;
  arg_size : string;
  arg_bar_width : option Z;
  arg_sine_width : option Z;
  arg_sine_height : option Z
}.

Definition SIZE_PRESETS : gmap string (gmap string Z) :=
  <["small" := <["bar_width" := 30]> (<["sine_width" := 40]> (<["sine_height" := 7]> ∅))]>
  (<["medium" := <["bar_width" := 50]> (<["sine_width" := 60]> (<["sine_height" := 9]> ∅))]>
  (<["large" := <["bar_width" := 80]> (<["sine_width" := 100]> (<["sine_height" := 15]> ∅))]>
  (<["xl" := <["bar_width" := 120]> (<["sine_width" := 150]> (<["sine_height" := 20]> ∅))]>
   ∅))).

(** [a if a is not None else preset[key]]. *)
Definition override (a : option Z) (preset : gmap string Z) (key : string)
    : result Z :=
  match a with
  | Some v => Ok v
  | None => dict_get preset key
  end.

(** The dimensions [main] resolves from the preset and the overrides. *)
Definition resolve_dimensions (a : args) : result (Z * Z * Z) :=
  do preset <- dict_get SIZE_PRESETS (arg_size a);
  do bar_width <- override (arg_bar_width a) preset "bar_width";
  do sine_width <- override (arg_sine_width a) preset "sine_width";
  do sine_height <- override (arg_sine_height a) preset "sine_height";
  Ok (bar_width, sine_width, sine_height).

(** [str.isspace] for one code point, as [str.strip()] uses it. *)
Definition is_space (c : N) : bool :=
  ((9 <=? c) && (c <=? 13) || (28 <=? c) && (c <=? 32) || (c =? 133)
   || (c =? 160) || (c =? 5760) || (8192 <=? c) && (c <=? 8202)
   || (c =? 8232) || (c =? 8233) || (c =? 8239) || (c =? 8287)
   || (c =? 12288))%N.

Fixpoint lstrip (s : str) : str :=
  match s with
  | [] => []
  | c :: s' => if is_space c then lstrip s' else s
  end.
Definition strip (s : str) : str := rev (lstrip (rev (lstrip s))).

(** [main]; [token_file] is the content of [~/.emulator_console_auth_token],
    [None] when the file does not exist. *)
Definition main (fuel : nat) (a : args) (token_file : option str) : M unit :=
  (run '(bar_width, sine_width, sine_height) <- lift (resolve_dimensions a) ;
   let emulator_host := u "localhost" in
   let emulator_port := arg_port a in
   let auth_token := arg_token a in
   run auth_token <-
     (if falsy auth_token then
        match token_file with
        | Some content =>
            print (u "Read auth token from ~/.emulator_console_auth_token") ;;
            ret (Some (strip content))
        | None =>
            print (u "Warning: Auth token file not found and --token was not provided.") ;;
            ret auth_token
        end
      else ret auth_token) ;
   run emulator <- connect_to_emulator emulator_host emulator_port auth_token ;
   match emulator with
   | Some emulator => run_simulation fuel emulator bar_width sine_width sine_height
   | None => ret tt
   end)%M.

End Mockstep.

(** How a test feeds a buffer: one [add_value] per value, in order. *)
Fixpoint add_values (self : DataBuffer) (values : list float) : result DataBuffer :=
  match values with
  | [] => Ok self
  | v :: rest => do self' <- add_value self v; add_values self' rest
  end.

(* ===================================================================== *)
(** * Part V: properties                                                  *)
(* ===================================================================== *)

(** ** The shoe-state selector *)

Definition READY : str := u "👟 Step: [▬▬▬] Ready".
Definition LIFTING : str := u "👟 Step: [▬▬▬] Lifting...".
Definition STRIDING : str := u "👟 Step: [▬▬▬] ↗ Striding".
Definition LANDING : str := u "👟 Step: [▬▬▬] ↘ Landing!".

Lemma get_shoe_state_table (v : float) (d : bool) :
  get_shoe_state ShoeAnimation_init v d =
  Ok (if d && float_ge v 0.5 then LANDING
      else if float_ge v 0.3 then STRIDING
      else if float_ge v (-0.3) then LIFTING
      else READY).
Proof.
  unfold get_shoe_state.
  destruct (d && float_ge v 0.5); [by vm_compute|].
  destruct (float_ge v 0.3); [by vm_compute|].
  destruct (float_ge v (-0.3)); by vm_compute.
Qed.

(** C8. The shoe-state selector is a function of [(sineValue, stepDetected)]
    alone that walks the decision table in priority order: a detected step
    with [sineValue >= 0.5] gives Landing whatever the later rows say, then
    [>= 0.3] gives Striding, then [>= -0.3] gives Lifting, otherwise Ready.
    On the four sample pairs: [(0.6, true)] is Landing although it also
    meets the Striding condition, [(0.6, false)] is Striding, [(0.0, false)]
    is Lifting and [(-0.5, false)] is Ready. *)
Theorem shoe_state_decision_table :
  (forall (v : float) (d : bool),
     get_shoe_state ShoeAnimation_init v d =
     Ok (if d && float_ge v 0.5 then LANDING
         else if float_ge v 0.3 then STRIDING
         else if float_ge v (-0.3) then LIFTING
         else READY))
  /\ get_shoe_state ShoeAnimation_init 0.6 true = Ok LANDING
  /\ float_ge 0.6 0.3 = true
  /\ get_shoe_state ShoeAnimation_init 0.6 false = Ok STRIDING
  /\ get_shoe_state ShoeAnimation_init 0.0 false = Ok LIFTING
  /\ get_shoe_state ShoeAnimation_init (-0.5) false = Ok READY
  /\ NoDup [READY; LIFTING; STRIDING; LANDING].
Proof.
  split; [exact get_shoe_state_table|].
  repeat (split; [by vm_compute|]).
  repeat (apply NoDup_cons; split; [by vm_compute; set_solver|]).
  apply NoDup_nil; done.
Qed.

(** ** Presets and overrides *)

(** C9. For each of the four preset names and every combination of given
    and absent overrides, a given override is the effective dimension and an
    absent one falls back to the preset's; preset [large] with
    [--bar-width 99] gives [(99, 100, 15)] and preset [small] alone gives
    [(30, 40, 7)]. *)
Theorem preset_override_resolution :
  (forall (size : string) (port : Z) (token : option str)
          (bar sine height : option Z),
     size ∈ ["small"; "medium"; "large"; "xl"]%string ->
     exists pb ps ph : Z,
       resolve_dimensions (mkArgs port token size None None None) = Ok (pb, ps, ph)
       /\ resolve_dimensions (mkArgs port token size bar sine height)
          = Ok (default pb bar, default ps sine, default ph height))
  /\ (forall port token,
        resolve_dimensions (mkArgs port token "large" (Some 99) None None)
        = Ok (99, 100, 15))
  /\ (forall port token,
        resolve_dimensions (mkArgs port token "small" None None None)
        = Ok (30, 40, 7)).
Proof.
  split; [|split; intros; by vm_compute].
  intros size port token bar sine height Hsize.
  repeat (apply elem_of_cons in Hsize as [-> | Hsize]);
    [ exists 30, 40, 7 | exists 50, 60, 9 | exists 80, 100, 15
    | exists 120, 150, 20 | by apply elem_of_nil in Hsize ];
    (split; [by vm_compute|]);
    destruct bar, sine, height; by vm_compute.
Qed.

Lemma preset_override_resolution_witness :
  exists pb ps ph : Z,
    resolve_dimensions (mkArgs 5554 None "xl" None None None) = Ok (pb, ps, ph)
    /\ resolve_dimensions (mkArgs 5554 None "xl" None (Some 72) None)
       = Ok (default pb None, default ps (Some 72), default ph None).
Proof.
  apply (proj1 preset_override_resolution "xl" 5554 None None (Some 72) None).
  vm_compute. set_solver.
Defined.

(** ** The circular buffer *)

(** A buffer of capacity [n] between two operations: the backing list has
    [n] slots and the write cursor points into it. *)
Definition buffer_wf (n : Z) (self : DataBuffer) : Prop :=
  size self = n /\ Z.of_nat (length (buffer self)) = n /\ 0 <= index self < n.

Lemma DataBuffer_init_wf (n : Z) : 1 <= n -> buffer_wf n (DataBuffer_init n).
Proof.
  intros Hn. unfold buffer_wf, DataBuffer_init, list_repeat; simpl.
  rewrite length_replicate. lia.
Qed.

Lemma slice_bound_in_range {A} (l : list A) (i : Z) :
  0 <= i <= Z.of_nat (length l) -> slice_bound l i = Z.to_nat i.
Proof.
  intros Hi. unfold slice_bound.
  destruct (Z.ltb_spec i 0); [lia|]. f_equal. lia.
Qed.

Lemma get_display_values_init (n : Z) :
  get_display_values (DataBuffer_init n) = list_repeat 0%float n.
Proof.
  unfold get_display_values, slice_from, slice_to; simpl.
  rewrite slice_bound_in_range by lia. simpl. by rewrite app_nil_r.
Qed.

Lemma get_display_values_length (n : Z) (self : DataBuffer) :
  buffer_wf n self -> Z.of_nat (length (get_display_values self)) = n.
Proof.
  intros (_ & Hlen & Hidx).
  unfold get_display_values, slice_from, slice_to.
  rewrite length_app, length_drop, length_take.
  rewrite slice_bound_in_range by lia. lia.
Qed.

Lemma mod_pred_succ (i n : Z) : 0 <= i < n -> ((i + 1) mod n - 1) mod n = i.
Proof.
  intros Hi. destruct (Z.eq_dec (i + 1) n) as [E | E].
  - rewrite E, Z.mod_same by lia.
    symmetry. apply (Z.mod_unique _ _ (-1)); lia.
  - rewrite (Z.mod_small (i + 1)) by lia.
    replace (i + 1 - 1) with i by lia. apply Z.mod_small; lia.
Qed.

(** One insertion: the cursor advances modulo the capacity, the oldest
    value leaves the display, the new one enters at its end, and it is the
    current value. *)
Lemma add_value_spec (n : Z) (self : DataBuffer) (v : float) :
  buffer_wf n self ->
  exists self',
    add_value self v = Ok self'
    /\ buffer_wf n self'
    /\ index self' = (index self + 1) mod n
    /\ get_display_values self' = drop 1 (get_display_values self) ++ [v]
    /\ get_current_value self' = Ok (Some v).
Proof.
  intros (Hsize & Hlen & Hidx).
  destruct self as [sz buf idx hd]; simpl in *; subst sz.
  assert (Hmod : 0 <= (idx + 1) mod n < n) by (apply Z.mod_pos_bound; lia).
  assert (Hi : (Z.to_nat idx < length buf)%nat) by lia.
  unfold add_value, list_set, list_index, py_mod; simpl.
  replace ((0 <=? idx) && (idx <? Z.of_nat (length buf))) with true
    by (symmetry; apply andb_true_iff; split; [apply Z.leb_le | apply Z.ltb_lt]; lia).
  simpl.
  replace (n =? 0) with false by (symmetry; apply Z.eqb_neq; lia).
  eexists; split; [reflexivity|].
  split; [|split; [reflexivity|split]].
  - unfold buffer_wf; simpl. rewrite length_insert. lia.
  - unfold get_display_values, slice_from, slice_to; simpl.
    rewrite !slice_bound_in_range by (rewrite ?length_insert; lia).
    rewrite drop_app_le by (rewrite length_drop; lia).
    rewrite drop_drop.
    destruct (Z.eq_dec (idx + 1) n) as [E | E].
    + rewrite E, Z.mod_same by lia. simpl.
      rewrite app_nil_r.
      rewrite (drop_ge buf) by lia. simpl.
      rewrite insert_take_drop by lia.
      rewrite (drop_ge buf) by lia. done.
    + rewrite (Z.mod_small (idx + 1)) by lia.
      replace (Z.to_nat (idx + 1)) with (S (Z.to_nat idx)) by lia.
      rewrite drop_insert_lt by lia.
      rewrite (take_S_r _ _ v) by (by apply list_lookup_insert_eq).
      rewrite take_insert_ge by lia.
      replace (Z.to_nat idx + 1)%nat with (S (Z.to_nat idx)) by lia.
      by rewrite app_assoc.
  - unfold get_current_value, py_mod, list_get, list_index; simpl.
    replace (n =? 0) with false by (symmetry; apply Z.eqb_neq; lia).
    simpl. rewrite mod_pred_succ by lia.
    rewrite length_insert.
    replace ((0 <=? idx) && (idx <? Z.of_nat (length buf))) with true
      by (symmetry; apply andb_true_iff; split; [apply Z.leb_le | apply Z.ltb_lt]; lia).
    simpl. by rewrite list_lookup_insert_eq.
Qed.

Lemma add_values_spec (n : Z) (values : list float) :
  forall self : DataBuffer,
    buffer_wf n self ->
    exists self',
      add_values self values = Ok self'
      /\ buffer_wf n self'
      /\ index self' = (index self + Z.of_nat (length values)) mod n
      /\ get_display_values self'
         = drop (length values) (get_display_values self ++ values)
      /\ (values <> [] -> get_current_value self' = Ok (last values)).
Proof.
  induction values as [|v rest IH]; intros self Hwf.
  - exists self. simpl. split; [done|]. split; [done|].
    destruct Hwf as (Hs & Hl & Hi).
    split; [rewrite Z.add_0_r, Z.mod_small; lia|].
    split; [by rewrite app_nil_r|done].
  - destruct (add_value_spec n self v Hwf) as (s1 & Hadd & Hwf1 & Hidx1 & Hdisp1 & Hcur1).
    destruct (IH s1 Hwf1) as (s2 & Hadds & Hwf2 & Hidx2 & Hdisp2 & Hcur2).
    exists s2. simpl. rewrite Hadd. simpl.
    split; [done|]. split; [done|].
    pose proof (get_display_values_length n self Hwf) as Hlen.
    destruct Hwf as (Hs & Hl & Hi).
    split; [|split].
    + rewrite Hidx2, Hidx1, Zplus_mod_idemp_l. f_equal. lia.
    + rewrite Hdisp2, Hdisp1.
      destruct (get_display_values self) as [|x d]; [simpl in Hlen; lia|].
      simpl. rewrite drop_0. by rewrite <- app_assoc.
    + intros _. destruct rest as [|v' rest'].
      * simpl in Hadds. injection Hadds as <-. exact Hcur1.
      * rewrite Hcur2 by done. done.
Qed.

(** C3 (as the claim states it, at capacity 0): the very first insertion
    into a buffer of capacity 0 raises [IndexError], so inserting
    [capacity + 1] values leaves no display at all. *)
Lemma wrap_around_fails_at_capacity_zero :
  Z.of_nat (length [1.5%float]) = 0 + 1
  /\ add_values (DataBuffer_init 0) [1.5%float] = Raise IndexError.
Proof. split; by vm_compute. Qed.

(** C3 (amended). For every buffer of capacity [N >= 1] and every [k >= 1],
    inserting [N + k] values one by one succeeds and leaves
    [get_display_values] equal to the last [N] inserted values in insertion
    order (oldest first), [get_current_value] equal to the value inserted
    last, and the write cursor at the number of insertions modulo [N]. *)
Theorem buffer_wrap_around :
  forall (N k : Z) (values : list float),
    1 <= N -> 1 <= k ->
    Z.of_nat (length values) = N + k ->
    exists self,
      add_values (DataBuffer_init N) values = Ok self
      /\ get_display_values self = drop (Z.to_nat k) values
      /\ Z.of_nat (length (get_display_values self)) = N
      /\ get_current_value self = Ok (last values)
      /\ index self = (N + k) mod N
      /\ 0 <= index self < N.
Proof.
  intros N k values HN Hk Hlen.
  destruct (add_values_spec N values (DataBuffer_init N) (DataBuffer_init_wf N HN))
    as (self & Hadd & Hwf & Hidx & Hdisp & Hcur).
  exists self. split; [done|].
  assert (Hdrop : get_display_values self = drop (Z.to_nat k) values).
  { rewrite Hdisp, get_display_values_init.
    unfold list_repeat.
    rewrite drop_app_ge by (rewrite length_replicate; lia).
    rewrite length_replicate. f_equal. lia. }
  split; [done|].
  split; [rewrite Hdrop, length_drop; lia|].
  split; [apply Hcur; intros ->; simpl in Hlen; lia|].
  split; [rewrite Hidx; simpl; by rewrite Hlen|].
  by destruct Hwf as (_ & _ & ?).
Qed.

Lemma buffer_wrap_around_witness :
  exists self,
    add_values (DataBuffer_init 3) [1; 2; 3; 4; 5]%float = Ok self
    /\ get_display_values self = drop (Z.to_nat 2) [1; 2; 3; 4; 5]%float
    /\ Z.of_nat (length (get_display_values self)) = 3
    /\ get_current_value self = Ok (last [1; 2; 3; 4; 5]%float)
    /\ index self = (3 + 2) mod 3
    /\ 0 <= index self < 3.
Proof.
  apply (buffer_wrap_around 3 2 [1; 2; 3; 4; 5]%float); [lia | lia | by vm_compute].
Defined.

(** ** Constructing the sine graph *)


Lemma float_of_int_small (z : Z) :
  Z.abs z < FLOAT_LIMIT ->
  float_of_int z = Ok (SF2Prim (binary_normalize prec emax z 0 false)).
Proof.
  intros H. unfold float_of_int.
  destruct (Z.leb_spec FLOAT_LIMIT (Z.abs z)); [lia | reflexivity].
Qed.

Lemma format_2f_Float (f : float) : exists t, format_2f (Float f) = Ok t.
Proof.
  unfold format_2f; simpl. destruct (fixed2 f) as [s body]. eauto.
Qed.







Lemma length_range (n : Z) : length (range n) = Z.to_nat n.
Proof. unfold range. by rewrite length_map, length_seq. Qed.




(** ** Reading from a connection the peer has closed *)

(** What is still to arrive from a peer that sends some more data and then
    closes; [None] for a peer that stalls or resets first. *)
Fixpoint pending (p : peer) : option bytes :=
  match p with
  | Sends data next => option_map (app data) (pending next)
  | Closed => Some []
  | Stalls _ | Resets => None
  end.

Lemma starts_with_app (needle hay more : bytes) :
  starts_with needle hay = true -> starts_with needle (hay ++ more) = true.
Proof.
  revert hay. induction needle as [|x needle IH]; intros [|y hay]; simpl; try done.
  intros [-> H]%andb_true_iff. simpl. by apply IH.
Qed.

Lemma bytes_in_app (needle hay more : bytes) :
  bytes_in needle hay = true -> bytes_in needle (hay ++ more) = true.
Proof.
  induction hay as [|y hay IH]; simpl.
  - rewrite orb_false_r. destruct needle; [|done]. intros _. by destruct more.
  - intros [H | H]%orb_true_iff; apply orb_true_iff.
    + left. by apply (starts_with_app needle (y :: hay)).
    + right. by apply IH.
Qed.

Lemma bytes_in_app_false (needle hay more : bytes) :
  bytes_in needle (hay ++ more) = false -> bytes_in needle hay = false.
Proof.
  intros H. destruct (bytes_in needle hay) eqn:E; [|done].
  by rewrite (bytes_in_app _ _ more E) in H.
Qed.

(** A [recv] on such a peer never raises: it returns the next piece of what
    is pending, the empty piece once the peer has closed. *)
Lemma recv_pending (n : nat) (p : peer) (rest : bytes) :
  pending p = Some rest ->
  exists chunk p' rest',
    recv n p = (Ok chunk, p') /\ pending p' = Some rest' /\ rest = chunk ++ rest'.
Proof.
  revert rest. induction p as [data next IH | | |]; intros rest; simpl; try done.
  - destruct (pending next) as [r|] eqn:E; [|done]. simpl. intros [= <-].
    destruct data as [|x data].
    + destruct (IH r eq_refl) as (chunk & p' & rest' & Hr & Hp & ->). eauto 10.
    + exists (take n (x :: data)).
      destruct (drop n (x :: data)) as [|y more] eqn:D.
      * exists next, r. split; [done|]. split; [done|].
        rewrite <- (take_drop n (x :: data)) at 1. by rewrite D, app_nil_r.
      * exists (Sends (y :: more) next), ((y :: more) ++ r).
        split; [done|]. split; [simpl; by rewrite E|].
        rewrite <- D, app_assoc. by rewrite take_drop.
  - intros [= <-]. by exists [], Closed, [].
Qed.

Lemma read_until_loop_spins (expected : bytes) (fuel : nat) :
  forall (data : bytes) (p : peer) (rest : bytes),
    pending p = Some rest ->
    bytes_in expected (data ++ rest) = false ->
    exists p', read_until_loop fuel expected data p = (OutOfFuel, p').
Proof.
  induction fuel as [|fuel IH]; intros data p rest Hp Hno; simpl;
    rewrite (bytes_in_app_false _ _ _ Hno).
  - eauto.
  - destruct (recv_pending 4096 p rest Hp) as (chunk & p' & rest' & -> & Hp' & ->).
    apply (IH _ p' rest' Hp'). by rewrite <- app_assoc.
Qed.

(** C4 (the code at the failing input).  When the peer sends data that does
    not contain the marker and then closes, [read_until] neither returns nor
    raises, however many [recv] calls are followed: every [recv] on the
    closed connection returns [b""], the loop condition stays true, and the
    loop spins.  The claim asks for a connection-closed failure here. *)
Theorem read_until_spins_after_close :
  forall (fuel : nat) (p : peer) (rest expected : bytes) (t0 timeout : Z),
    pending p = Some rest ->
    bytes_in expected rest = false ->
    fst (read_until fuel (mkTelnetConnection p t0) expected timeout) = OutOfFuel.
Proof.
  intros fuel p rest expected t0 timeout Hp Hno. unfold read_until. simpl.
  destruct (read_until_loop_spins expected fuel [] p rest Hp Hno) as [p' ->].
  done.
Qed.

Lemma read_until_spins_after_close_witness :
  fst (read_until 1000
         (mkTelnetConnection (Sends (b "Android Console: type 'help'") Closed) 10)
         (b "OK") 10)
  = OutOfFuel.
Proof.
  apply (read_until_spins_after_close 1000 _ (b "Android Console: type 'help'"));
    by vm_compute.
Defined.

(** The other half of the claim holds: a [recv] that exceeds the timeout
    before the marker has arrived ends [read_until] with a timeout. *)
Lemma read_until_times_out (fuel : nat) (next : peer) (expected : bytes) :
  expected <> [] ->
  read_until_loop (S fuel) expected [] (Stalls next) = (Raise TimeoutError, next).
Proof. intros H. destruct expected; [done|]. by simpl. Qed.

(** ** The handshake that fails *)

(** A [sensor set] command on the wire. *)
Definition is_sensor_set (ev : chan_event) : bool :=
  match ev with
  | EvWrite data => starts_with (b "sensor set") data
  | _ => false
  end.

(** The reply of the console to the fourth operation on a fresh channel
    (open, read the banner, write [auth], read the response) contains [KO]. *)
Definition ko_response (env : nat -> reply) : Prop :=
  exists resp, env 3%nat = Answers resp /\ bytes_in (b "KO") resp = true.

Lemma encode_app s1 s2 :
  encode (s1 ++ s2) = rbind (encode s1) (fun x => rbind (encode s2) (fun y => Ok (x ++ y))).
Proof.
  induction s1 as [|c s1 IH]; simpl.
  - destruct (encode s2); done.
  - destruct (encode_char c); simpl; try done. rewrite IH.
    destruct (encode s1); simpl; try done. destruct (encode s2); simpl; try done.
    by rewrite app_assoc.
Qed.

Lemma auth_command_not_sensor_set (s : str) (c : bytes) :
  encode (u "auth " ++ s) = Ok c -> starts_with (b "sensor set") c = false.
Proof.
  rewrite encode_app. change (encode (u "auth ")) with (Ok (A:=bytes) (b "auth ")).
  simpl. destruct (encode s); simpl; [|done..]. by intros [= <-].
Qed.

Lemma encode_outcome (s : str) :
  (exists c, encode s = Ok c) \/ encode s = Raise ValueError.
Proof.
  induction s as [|c s IH]; simpl; [eauto|].
  assert (Hc : (exists x, encode_char c = Ok x) \/ encode_char c = Raise ValueError).
  { unfold encode_char. repeat (match goal with |- context [if ?t then _ else _] => destruct t end; eauto). }
  destruct Hc as [[x ->] | ->]; simpl; [|auto].
  destruct IH as [[r ->] | ->]; simpl; eauto.
Qed.

Arguments u : simpl never.
Arguments str_of_int : simpl never.

Ltac run_channel env :=
  repeat (simpl;
    match goal with
    | H : env ?n = _ |- context [env ?n] => rewrite H
    | |- context [match env ?n with _ => _ end] =>
        let e := fresh "e" in destruct (env n) as [?|e] eqn:?; [|destruct e]
    | |- context [match ?i with Some _ => _ | None => _ end] =>
        is_var i; destruct i as [[|?]|]
    | |- context [match ?i with O => _ | S _ => _ end] =>
        is_var i; destruct i
    end).

Lemma connect_refused env exn_text host port token w :
  w_chan w = [] ->
  falsy token = true \/ ko_response env ->
  (fst (connect_to_emulator env exn_text host port token w) = Ok None \/
   fst (connect_to_emulator env exn_text host port token w) = Raise KeyboardInterrupt) /\
  Forall (fun ev => is_sensor_set ev = false) (w_chan (snd (connect_to_emulator env exn_text host port token w))).
Proof.
  intros Hc H. destruct w as [out chan intr]; simpl in Hc; subst chan.
  unfold connect_to_emulator, try_except_Exception, bind, Telnet_open, Telnet_read_until,
    Telnet_write, channel_op, interruptible, bind, ret, lift, print, print_end.
  destruct (falsy token) eqn:Ef.
  - run_channel env; (split; [auto|repeat constructor]).
  - destruct H as [H|(resp & Hr & Hko)]; [done|].
    destruct (encode (u "auth " ++ default [] token ++ [NL])) as [c| |] eqn:Ec.
    + apply auth_command_not_sensor_set in Ec.
      run_channel env; rewrite ?Hko; simpl; (split; [auto|repeat constructor; done]).
    + destruct (encode_outcome (u "auth " ++ default [] token ++ [NL])) as [[? E] | E];
        rewrite E in Ec; [done|]. injection Ec as <-.
      run_channel env; (split; [auto|repeat constructor; done]).
    + by destruct (encode_outcome (u "auth " ++ default [] token ++ [NL])) as [[? E] | E];
        rewrite E in Ec.
Qed.


(** No token after [main] resolved it: none on the command line, and no
    token file or a blank one. *)
Definition token_absent (a : args) (token_file : option str) : Prop :=
  falsy (arg_token a) = true /\ falsy (option_map strip token_file) = true.

Lemma bind_Ok {A B} (m : M A) (k : A -> M B) (w w1 : world) (a : A) :
  m w = (Ok a, w1) -> bind m k w = k a w1.
Proof. intros H. unfold bind. by rewrite H. Qed.

Lemma bind_Raise {A B} (m : M A) (k : A -> M B) (w w1 : world) (e : exn) :
  m w = (Raise e, w1) -> bind m k w = (Raise e, w1).
Proof. intros H. unfold bind. by rewrite H. Qed.

Lemma bind_OutOfFuel {A B} (m : M A) (k : A -> M B) (w w1 : world) :
  m w = (OutOfFuel, w1) -> bind m k w = (OutOfFuel, w1).
Proof. intros H. unfold bind. by rewrite H. Qed.

Lemma main_refused env exn_text libm_sin fuel a token_file w :
  w_chan w = [] ->
  token_absent a token_file \/ ko_response env ->
  Forall (fun ev => is_sensor_set ev = false)
         (w_chan (snd (main env exn_text libm_sin fuel a token_file w))).
Proof.
  intros Hc H. unfold main.
  destruct (resolve_dimensions a) as [[[bw sw] sh]| |] eqn:Hdims;
    [ erewrite bind_Ok by reflexivity
    | erewrite bind_Raise by reflexivity; cbn [snd]; rewrite Hc; constructor
    | erewrite bind_OutOfFuel by reflexivity; cbn [snd]; rewrite Hc; constructor ].
  set (tok := arg_token a) in *.
  match goal with |- context [bind ?m _] => set (resolve := m) end.
  assert (Htok : exists w1 t,
    resolve w = (Ok t, w1) /\ w_chan w1 = []
    /\ (falsy t = true \/ ko_response env)).
  { subst resolve. destruct H as [[Ha Hf] | H].
    - fold tok in Ha. rewrite Ha.
      destruct token_file as [c|];
        eexists _, _; (split; [reflexivity|]); cbn [w_chan]; auto.
    - destruct (falsy tok); [destruct token_file as [c|]|];
        eexists _, _; (split; [reflexivity|]); cbn [w_chan]; auto. }
  destruct Htok as (w1 & t & Hres & Hc1 & H1).
  rewrite (bind_Ok _ _ _ _ _ Hres).
  destruct (connect_refused env exn_text (u "localhost") (arg_port a) t w1 Hc1 H1)
    as [Hr Hev].
  destruct (connect_to_emulator env exn_text (u "localhost") (arg_port a) t w1)
    as [r w2] eqn:Hconn.
  cbn [fst snd] in Hr, Hev.
  destruct Hr as [-> | ->].
  - by rewrite (bind_Ok _ _ _ _ _ Hconn).
  - by rewrite (bind_Raise _ _ _ _ _ Hconn).
Qed.

(** C7. A handshake whose response to [auth] contains [KO], and likewise a
    run without an auth token, yields no usable channel:
    [connect_to_emulator] returns [None] (or is cut by the user's Ctrl-C),
    and [main] then sends no [sensor set] command on the channel. *)
Theorem failed_handshake_sends_no_sensor_command :
  (forall env exn_text host port token w,
     w_chan w = [] ->
     falsy token = true \/ ko_response env ->
     (fst (connect_to_emulator env exn_text host port token w) = Ok None
      \/ fst (connect_to_emulator env exn_text host port token w)
         = Raise KeyboardInterrupt)
     /\ Forall (fun ev => is_sensor_set ev = false)
          (w_chan (snd (connect_to_emulator env exn_text host port token w))))
  /\ (forall env exn_text libm_sin fuel a token_file w,
        w_chan w = [] ->
        token_absent a token_file \/ ko_response env ->
        Forall (fun ev => is_sensor_set ev = false)
          (w_chan (snd (main env exn_text libm_sin fuel a token_file w)))).
Proof. split; [exact connect_refused | exact main_refused]. Qed.

Lemma failed_handshake_sends_no_sensor_command_witness :
  Forall (fun ev => is_sensor_set ev = false)
    (w_chan (snd (main (fun n => if (n =? 3)%nat then Answers (b "KO: bad token")
                                 else Answers (b "OK"))
                       (fun _ => u "error") (fun x => x) 10
                       (mkArgs 5554 (Some (u "secret")) "medium" None None None)
                       None (mkWorld [] [] None)))).
Proof.
  apply (proj2 failed_handshake_sends_no_sensor_command); [reflexivity|].
  right. exists (b "KO: bad token"). split; by vm_compute.
Defined.

(** ** What a computation does to the channel *)

(** Every channel operation of [m] satisfies [P], whatever the world it
    starts in. *)
Definition emits {A} (P : chan_event -> Prop) (m : M A) : Prop :=
  forall w, exists evs, w_chan (snd (m w)) = w_chan w ++ evs /\ Forall P evs.

Lemma emits_silent {A} (P : chan_event -> Prop) (m : M A) :
  (forall w, w_chan (snd (m w)) = w_chan w) -> emits P m.
Proof. intros H w. exists []. by rewrite H, app_nil_r. Qed.

Lemma emits_ret {A} P (a : A) : emits P (ret a).
Proof. by apply emits_silent. Qed.

Lemma emits_raise {A} P (e : exn) : emits P (raise (A:=A) e).
Proof. by apply emits_silent. Qed.

Lemma emits_lift {A} P (r : result A) : emits P (lift r).
Proof. by apply emits_silent. Qed.

Lemma emits_print_end P (s e : str) : emits P (print_end s e).
Proof. by apply emits_silent. Qed.

Lemma emits_print P (s : str) : emits P (print s).
Proof. by apply emits_silent. Qed.

Lemma emits_interruptible P : emits P interruptible.
Proof.
  apply emits_silent. intros w. unfold interruptible.
  by destruct (w_intr w) as [[|k]|].
Qed.

Lemma emits_bind {A B} P (m : M A) (k : A -> M B) :
  emits P m -> (forall a, emits P (k a)) -> emits P (bind m k).
Proof.
  intros Hm Hk w. unfold bind.
  destruct (Hm w) as (evs & Hevs & HP).
  destruct (m w) as [[a| e |] w1]; simpl in *; [|eauto..].
  destruct (Hk a w1) as (evs' & Hevs' & HP').
  exists (evs ++ evs'). rewrite Hevs', Hevs, app_assoc.
  split; [done|]. by apply Forall_app.
Qed.

Lemma emits_try_except_Exception {A} P (body : M A) (handler : exn -> M A) :
  emits P body -> (forall e, emits P (handler e)) ->
  emits P (try_except_Exception body handler).
Proof.
  intros Hm Hk w. unfold try_except_Exception.
  destruct (Hm w) as (evs & Hevs & HP).
  destruct (body w) as [[a| e |] w1]; simpl in *; [eauto| |eauto].
  destruct (is_Exception e); simpl; [|eauto].
  destruct (Hk e w1) as (evs' & Hevs' & HP').
  exists (evs ++ evs'). rewrite Hevs', Hevs, app_assoc.
  split; [done|]. by apply Forall_app.
Qed.

Lemma emits_try_except_KeyboardInterrupt {A} P (body handler : M A) :
  emits P body -> emits P handler ->
  emits P (try_except_KeyboardInterrupt body handler).
Proof.
  intros Hm Hk w. unfold try_except_KeyboardInterrupt.
  destruct (Hm w) as (evs & Hevs & HP).
  destruct (body w) as [[a| e |] w1]; simpl in *; [eauto| |eauto].
  destruct e; simpl; eauto.
  destruct (Hk w1) as (evs' & Hevs' & HP').
  exists (evs ++ evs'). rewrite Hevs', Hevs, app_assoc.
  split; [done|]. by apply Forall_app.
Qed.

Lemma emits_channel_op P (env : nat -> reply) (ev : chan_event) :
  P ev -> emits P (channel_op env ev).
Proof.
  intros HP w. unfold channel_op, bind, interruptible.
  destruct (w_intr w) as [[|k]|]; simpl.
  - exists []. by rewrite app_nil_r.
  - exists [ev]. destruct (env _); simpl; auto.
  - exists [ev]. destruct (env _); simpl; auto.
Qed.

Lemma emits_if {A} P (c : bool) (m1 m2 : M A) :
  emits P m1 -> emits P m2 -> emits P (if c then m1 else m2).
Proof. by destruct c. Qed.

(** The structural rules, applied as far as they go. *)
Ltac emits_step :=
  first
    [ apply emits_channel_op
    | apply emits_ret | apply emits_raise | apply emits_lift
    | apply emits_print_end | apply emits_print | apply emits_interruptible
    | apply emits_if
    | apply emits_bind; [|intros]
    | apply emits_try_except_Exception; [|intros]
    | apply emits_try_except_KeyboardInterrupt
    | match goal with
      | |- emits _ (let '(_, _) := ?p in _) => destruct p
      | |- emits _ (match ?p with (_, _) => _ end) => destruct p
      end ].

Lemma emits_print_rows P (rows : list str) : emits P (print_rows rows).
Proof. induction rows as [|row rows IH]; simpl; repeat emits_step. done. Qed.

Lemma emits_plot P (self : DualGraph) (accel_value sine_value : float)
    (step_impact : bool) :
  emits P (plot self accel_value sine_value step_impact).
Proof.
  unfold plot, _render_sine_wave. repeat emits_step.
  all: apply emits_print_rows.
Qed.

(** ** Leaving the simulation loop *)

Definition not_close (ev : chan_event) : Prop := ev <> EvClose.

Section Loop.
Variable env : nat -> reply.
Variable exn_text : exn -> str.
Variable libm_sin : float -> float.

Lemma emits_set_sensor_data emulator sensor x y z :
  emits not_close (set_sensor_data env exn_text emulator sensor x y z).
Proof.
  unfold set_sensor_data, Telnet_write, Telnet_read_until.
  repeat emits_step; done.
Qed.

Lemma emits_loop_body emulator frequency st :
  emits not_close (loop_body env exn_text libm_sin emulator frequency st).
Proof.
  unfold loop_body, sleep.
  repeat first [apply emits_set_sensor_data | apply emits_plot | emits_step].
Qed.

(** The loop never closes the channel. *)
Lemma emits_while_True fuel emulator frequency :
  forall st, emits not_close (while_True env exn_text libm_sin fuel emulator frequency st).
Proof.
  induction fuel as [|fuel IH]; intros st; simpl.
  - by apply emits_silent.
  - apply emits_bind; [apply emits_loop_body | apply IH].
Qed.

(** The reset command of the cleanup, as it goes on the wire. *)
Definition NEUTRAL_COMMAND : bytes :=
  b "sensor set acceleration 0.00:9.80:0.00" ++ ["010"%byte].

Lemma neutral_command_text :
  (do c <- sensor_command (u "acceleration") (Int 0) (Float 9.8) (Int 0); encode c)
  = Ok NEUTRAL_COMMAND.
Proof. by vm_compute. Qed.

(** The [finally] block of [run_simulation]. *)
Definition cleanup (emulator : Telnet) : M unit :=
  (print (u "Resetting sensor data.") ;;
   set_sensor_data env exn_text emulator (u "acceleration") (Int 0) (Float 9.8) (Int 0) ;;
   Telnet_close emulator ;;
   print (u "Telnet connection closed."))%M.

(** The trace of a cleanup that no second Ctrl-C cuts short: the neutral
    command, the read of its acknowledgement unless the write failed, and
    the close. *)
Definition cleanup_trace (evs : list chan_event) : Prop :=
  evs = [EvWrite NEUTRAL_COMMAND; EvClose]
  \/ evs = [EvWrite NEUTRAL_COMMAND; EvReadUntil (b "OK") 2; EvClose].

Lemma cleanup_spec emulator w :
  fst (cleanup emulator w) = Raise KeyboardInterrupt
  \/ (fst (cleanup emulator w) = Ok tt
      /\ exists evs, w_chan (snd (cleanup emulator w)) = w_chan w ++ evs
                     /\ cleanup_trace evs).
Proof.
  unfold cleanup, set_sensor_data.
  pose proof neutral_command_text as Hcmd.
  destruct (sensor_command _ _ _ _) as [c| |]; simpl in Hcmd; try done.
  unfold bind at 1. unfold print at 1, print_end at 1. cbv beta iota.
  destruct w as [out chan intr]. cbn [w_out w_chan w_intr].
  unfold try_except_Exception, bind, lift, Telnet_write, Telnet_read_until,
    Telnet_close, channel_op, interruptible, bind, ret, print, print_end.
  rewrite Hcmd. cbn [w_out w_chan w_intr fst snd].
  destruct intr as [[|[|k]]|]; cbn [w_out w_chan w_intr fst snd]; auto.
  all: destruct (env (length chan)) as [d|e]; [|destruct e];
    cbn [w_out w_chan w_intr fst snd is_Exception exn_of_io_error]; auto.
  all: try (destruct (env (length (chan ++ [EvWrite NEUTRAL_COMMAND]))) as [d'|e'];
            [|destruct e'];
            cbn [w_out w_chan w_intr fst snd is_Exception exn_of_io_error]).
  all: right; (split; [reflexivity|]); rewrite <- ?app_assoc;
    eexists; (split; [reflexivity|]); unfold cleanup_trace; simpl; auto.
Qed.

End Loop.

(** ** Computations without loops finish *)

(** A computation of the pure part of the program returns, or raises an
    [Exception]: it has no loop to be cut short and it never produces the
    user's [KeyboardInterrupt]. *)
Definition plain {A} (r : result A) : Prop :=
  match r with
  | Ok _ => True
  | Raise e => is_Exception e = true
  | OutOfFuel => False
  end.

Lemma plain_Ok {A} (a : A) : plain (Ok a).
Proof. done. Qed.

Lemma plain_rbind {A B} (r : result A) (k : A -> result B) :
  plain r -> (forall a, plain (k a)) -> plain (rbind r k).
Proof. destruct r; simpl; auto; done. Qed.

Create HintDb plain.
#[local] Hint Resolve plain_Ok : plain.

Ltac plain_step :=
  match goal with
  | |- plain (Ok _) => exact I
  | |- plain (Raise _) => reflexivity
  | |- plain (rbind _ _) => apply plain_rbind; [|intros]
  | |- plain (if ?c then _ else _) => destruct c
  | |- plain (let '(_, _) := ?p in _) => destruct p
  | |- plain (match ?x with _ => _ end) => destruct x
  | |- plain _ => solve [auto with plain]
  end.
Ltac plain_tac := repeat plain_step.

Lemma plain_float_of_int z : plain (float_of_int z).
Proof. unfold float_of_int. plain_tac. Qed.
#[local] Hint Resolve plain_float_of_int : plain.

Lemma plain_to_float x : plain (to_float x).
Proof. unfold to_float. plain_tac. Qed.
#[local] Hint Resolve plain_to_float : plain.

Lemma plain_int_truediv a c : plain (int_truediv a c).
Proof. unfold int_truediv. plain_tac. Qed.
#[local] Hint Resolve plain_int_truediv : plain.

Lemma plain_float_truediv x y : plain (float_truediv x y).
Proof. unfold float_truediv. plain_tac. Qed.
#[local] Hint Resolve plain_float_truediv : plain.

Lemma plain_num_add x y : plain (num_add x y).
Proof. unfold num_add. plain_tac. Qed.
Lemma plain_num_sub x y : plain (num_sub x y).
Proof. unfold num_sub. plain_tac. Qed.
Lemma plain_num_mul x y : plain (num_mul x y).
Proof. unfold num_mul. plain_tac. Qed.
Lemma plain_num_truediv x y : plain (num_truediv x y).
Proof. unfold num_truediv. plain_tac. Qed.
#[local] Hint Resolve plain_num_add plain_num_sub plain_num_mul plain_num_truediv : plain.

Lemma plain_py_int x : plain (py_int x).
Proof. unfold py_int, int_of_float. plain_tac. Qed.
Lemma plain_py_round x : plain (py_round x).
Proof. unfold py_round, round_float. plain_tac. Qed.
#[local] Hint Resolve plain_py_int plain_py_round : plain.

Lemma plain_encode s : plain (encode s).
Proof.
  induction s as [|c s IH]; simpl; [done|].
  apply plain_rbind; [unfold encode_char; plain_tac|intros].
  apply plain_rbind; [done|intros; done].
Qed.
#[local] Hint Resolve plain_encode : plain.

Lemma plain_format_2f x : plain (format_2f x).
Proof. unfold format_2f. plain_tac. Qed.
#[local] Hint Resolve plain_format_2f : plain.
Lemma plain_format_5_2f x : plain (format_5_2f x).
Proof. unfold format_5_2f. plain_tac. Qed.
Lemma plain_format_plus_2f x : plain (format_plus_2f x).
Proof. unfold format_plus_2f. plain_tac. Qed.
#[local] Hint Resolve plain_format_5_2f plain_format_plus_2f : plain.

Lemma plain_list_index {A} (l : list A) i : plain (list_index l i).
Proof. unfold list_index. plain_tac. Qed.
#[local] Hint Resolve plain_list_index : plain.
Lemma plain_list_get {A} (l : list A) i : plain (list_get l i).
Proof. unfold list_get. plain_tac. Qed.
Lemma plain_list_set {A} (l : list A) i v : plain (list_set l i v).
Proof. unfold list_set. plain_tac. Qed.
Lemma plain_py_mod a m : plain (py_mod a m).
Proof. unfold py_mod. plain_tac. Qed.
Lemma plain_dict_get {V} (d : gmap string V) k : plain (dict_get d k).
Proof. unfold dict_get. plain_tac. Qed.
#[local] Hint Resolve plain_list_get plain_list_set plain_py_mod plain_dict_get : plain.

Lemma plain_get_shoe_state self v d : plain (get_shoe_state self v d).
Proof. unfold get_shoe_state. plain_tac. Qed.
Lemma plain_add_value self v : plain (add_value self v).
Proof. unfold add_value. plain_tac. Qed.
Lemma plain_get_current_value self : plain (get_current_value self).
Proof. unfold get_current_value. plain_tac. Qed.
#[local] Hint Resolve plain_get_shoe_state plain_add_value plain_get_current_value : plain.

Lemma plain__value_to_row g v : plain (_value_to_row g v).
Proof. unfold _value_to_row. plain_tac. Qed.
#[local] Hint Resolve plain__value_to_row : plain.

Lemma plain_plot_point g n i v rows : plain (plot_point g n i v rows).
Proof. unfold plot_point. plain_tac. Qed.
#[local] Hint Resolve plain_plot_point : plain.

Lemma plain_plot_points g n values : forall i rows, plain (plot_points g n i values rows).
Proof.
  induction values as [|v values IH]; intros; simpl; [done|].
  apply plain_rbind; [apply plain_plot_point | intros; apply IH].
Qed.
#[local] Hint Resolve plain_plot_points : plain.

Lemma plain_sine_rows g : plain (sine_rows g).
Proof. unfold sine_rows. plain_tac. Qed.
Lemma plain_bar_length bar a : plain (bar_length bar a).
Proof. unfold bar_length. plain_tac. Qed.
Lemma plain_sensor_command sensor x y z : plain (sensor_command sensor x y z).
Proof. unfold sensor_command. plain_tac. Qed.
#[local] Hint Resolve plain_sine_rows plain_bar_length plain_sensor_command : plain.

Lemma plain_math_sin libm_sin x : plain (math_sin libm_sin x).
Proof. unfold math_sin. plain_tac. Qed.
#[local] Hint Resolve plain_math_sin : plain.

Lemma plain_generate libm_sin step : plain (generate_walking_acceleration libm_sin step).
Proof. unfold generate_walking_acceleration. plain_tac. Qed.
#[local] Hint Resolve plain_generate : plain.

Lemma plain_row_label lo hi h i : plain (row_label lo hi h i).
Proof. unfold row_label. plain_tac. Qed.
#[local] Hint Resolve plain_row_label : plain.

Lemma plain_for_append {A B} (f : A -> result B) l :
  (forall x, plain (f x)) -> plain (for_append f l).
Proof.
  intros H. induction l as [|x l IH]; simpl; [done|].
  apply plain_rbind; [apply H | intros].
  apply plain_rbind; [apply IH | intros; done].
Qed.

Lemma plain_DualGraph_init bw br sw sh sr : plain (DualGraph_init bw br sw sh sr).
Proof.
  unfold DualGraph_init, SineWaveGraph_init. destruct sr.
  plain_tac. apply plain_for_append. auto with plain.
Qed.
#[local] Hint Resolve plain_DualGraph_init : plain.

(** ** Where a Ctrl-C can land *)





















Section LoopEnds.
Variable env : nat -> reply.
Variable exn_text : exn -> str.
Variable libm_sin : float -> float.




(** The loop never returns; once the user has pressed Ctrl-C it ends, with
    [KeyboardInterrupt] if the Ctrl-C landed in it. *)
Lemma while_True_never_returns fuel emulator frequency :
  forall st w a w',
    while_True env exn_text libm_sin fuel emulator frequency st w <> (Ok a, w').
Proof.
  induction fuel as [|fuel IH]; intros st w a w'; simpl; [done|].
  unfold bind. destruct (loop_body _ _ _ _ _ _ _) as [[st'|e|] w1]; [apply IH|done..].
Qed.

End LoopEnds.


Section Cleanup.
Variable env : nat -> reply.
Variable exn_text : exn -> str.
Variable libm_sin : float -> float.



End Cleanup.


(** ** Sending one sensor update *)

(** What [set_sensor_data] returns and what it does on the channel. *)
Lemma set_sensor_data_outcome :
  forall env exn_text emulator sensor x y z w,
    let outcome := set_sensor_data env exn_text emulator sensor x y z w in
    let command := (do c <- sensor_command sensor x y z; encode c) in
    (fst outcome = Ok tt \/ fst outcome = Raise KeyboardInterrupt)
    /\ (w_intr w = None -> fst outcome = Ok tt)
    /\ (exists evs,
          w_chan (snd outcome) = w_chan w ++ evs
          /\ (evs = []
              \/ exists data, command = Ok data
                   /\ (evs = [EvWrite data]
                       \/ evs = [EvWrite data; EvReadUntil (b "OK") 2]))
          /\ (fst outcome = Ok tt ->
              forall data, command = Ok data ->
              evs = [EvWrite data] /\ (exists e, env (length (w_chan w)) = Fails e)
              \/ evs = [EvWrite data; EvReadUntil (b "OK") 2])).
Proof.
  intros env exn_text emulator sensor x y z w.
  pose proof (plain_sensor_command sensor x y z) as Hc.
  destruct w as [out chan intr].
  unfold set_sensor_data, try_except_Exception, bind, lift, Telnet_write,
    Telnet_read_until, channel_op, interruptible, bind, ret, print, print_end.
  destruct (sensor_command sensor x y z) as [c|e|]; cbn [plain] in Hc; [| |done].
  2: { rewrite Hc. cbn [w_out w_chan w_intr fst snd rbind].
       split; [auto|]. split; [auto|]. exists []. rewrite app_nil_r.
       repeat split; auto; done. }
  pose proof (plain_encode c) as He. cbn [rbind].
  destruct (encode c) as [data|e|]; cbn [plain] in He; [| |done].
  2: { rewrite He. cbn [w_out w_chan w_intr fst snd].
       split; [auto|]. split; [auto|]. exists []. rewrite app_nil_r.
       repeat split; auto; done. }
  cbn [w_out w_chan w_intr fst snd].
  destruct intr as [[|[|k]]|]; cbn [w_out w_chan w_intr fst snd].
  1: { split; [auto|]. split; [done|]. exists []. rewrite app_nil_r.
       repeat split; auto; done. }
  all: destruct (env (length chan)) as [d|e] eqn:E1; [|destruct e];
    cbn [w_out w_chan w_intr fst snd is_Exception exn_of_io_error].
  all: try (destruct (env (length (chan ++ [EvWrite data]))) as [d'|e'];
            [|destruct e'];
            cbn [w_out w_chan w_intr fst snd is_Exception exn_of_io_error]).
  all: (split; [auto|]); (split; [try done|]).
  all: rewrite <- ?app_assoc; eexists; (split; [reflexivity|]).
  all: split; [right; eexists; split; [reflexivity|]; simpl; auto|].
  all: try done.
  all: intros _ ? [= <-]; simpl; eauto.
Qed.

(** X2. [set_sensor_data] never lets a failure of the channel (or of the
    formatting) escape: whatever the console replies it returns normally,
    unless the user's Ctrl-C lands in it. It makes at most one write, of the
    formatted command, and reads the acknowledgement (marker [OK], timeout
    2) only after a write that did not fail; when it returns and the command
    can be formatted, the write was made, and so was the read unless the
    write failed. *)
Theorem set_sensor_data_swallows_failures :
  forall env exn_text emulator sensor x y z w,
    let outcome := set_sensor_data env exn_text emulator sensor x y z w in
    let command := (do c <- sensor_command sensor x y z; encode c) in
    (fst outcome = Ok tt \/ fst outcome = Raise KeyboardInterrupt)
    /\ (w_intr w = None -> fst outcome = Ok tt)
    /\ (exists evs,
          w_chan (snd outcome) = w_chan w ++ evs
          /\ (evs = []
              \/ exists data, command = Ok data
                   /\ (evs = [EvWrite data]
                       \/ evs = [EvWrite data; EvReadUntil (b "OK") 2]))
          /\ (fst outcome = Ok tt ->
              forall data, command = Ok data ->
              evs = [EvWrite data] /\ (exists e, env (length (w_chan w)) = Fails e)
              \/ evs = [EvWrite data; EvReadUntil (b "OK") 2])).
Proof. exact set_sensor_data_outcome. Qed.

(** ** The handshake *)

(** The console answers the four operations of the handshake and its
    response to [auth] does not contain [KO]. *)
Definition handshake_accepted (env : nat -> reply) : Prop :=
  (exists banner, env 0%nat = Answers banner)
  /\ (exists banner, env 1%nat = Answers banner)
  /\ (exists d, env 2%nat = Answers d)
  /\ (exists resp, env 3%nat = Answers resp /\ bytes_in (b "KO") resp = false).

(** X3. On a fresh channel and without Ctrl-C, [connect_to_emulator] raises
    nothing: every failure ends in [None]. It returns the channel exactly
    when the token is a non-empty string that can be encoded, the console
    answers all four operations, and the response to [auth] does not contain
    [KO] (an [OK] in it is not required). The channel has then seen the
    open, the read of the banner, the write of [auth <token>] and a newline,
    and the read of the response, and nothing else. *)
Theorem connect_to_emulator_succeeds_iff :
  forall env exn_text host port token w,
    w_chan w = [] -> w_intr w = None ->
    let outcome := connect_to_emulator env exn_text host port token w in
    let command := encode (u "auth " ++ default [] token ++ [NL]) in
    (fst outcome = Ok (Some TelnetHandle) \/ fst outcome = Ok None)
    /\ (fst outcome = Ok (Some TelnetHandle) <->
        falsy token = false /\ (exists data, command = Ok data)
        /\ handshake_accepted env)
    /\ (fst outcome = Ok (Some TelnetHandle) ->
        exists data,
          command = Ok data
          /\ w_chan (snd outcome)
             = [EvOpen host port 10; EvReadUntil (b "OK") 10; EvWrite data;
                EvReadUntil (b "OK") 10]).
Proof.
  intros env exn_text host port token w Hc Hi.
  destruct w as [out chan intr]; simpl in Hc, Hi; subst chan intr.
  unfold handshake_accepted.
  unfold connect_to_emulator, try_except_Exception, bind, Telnet_open,
    Telnet_read_until, Telnet_write, channel_op, interruptible, bind, ret, lift,
    print, print_end.
  cbn [w_out w_chan w_intr fst snd length].
  destruct (env 0%nat) as [d0|e0] eqn:E0; [|destruct e0];
    cbn [w_out w_chan w_intr fst snd length app is_Exception exn_of_io_error].
  2-4: split; [auto|]; split; [|done]; split; [done|];
       intros (_ & _ & [? ?] & _); done.
  destruct (env 1%nat) as [d1|e1] eqn:E1; [|destruct e1];
    cbn [w_out w_chan w_intr fst snd length app is_Exception exn_of_io_error].
  2-4: split; [auto|]; split; [|done]; split; [done|];
       intros (_ & _ & _ & [? ?] & _); done.
  destruct (falsy token) eqn:Ef;
    cbn [w_out w_chan w_intr fst snd length app].
  { split; [auto|]. split; [|done]. split; [done|]. intros [? _]. done. }
  pose proof (plain_encode (u "auth " ++ default [] token ++ [NL])) as He.
  destruct (encode _) as [data|e|]; cbn [plain] in He; [| |done];
    cbn [w_out w_chan w_intr fst snd length app].
  2: { rewrite He. cbn [fst]. split; [auto|]. split; [|done]. split; [done|].
       intros (_ & [? ?] & _). done. }
  destruct (env 2%nat) as [d2|e2] eqn:E2; [|destruct e2];
    cbn [w_out w_chan w_intr fst snd length app is_Exception exn_of_io_error].
  2-4: split; [auto|]; split; [|done]; split; [done|];
       intros (_ & _ & _ & _ & [? ?] & _); done.
  destruct (env 3%nat) as [d3|e3] eqn:E3; [|destruct e3];
    cbn [w_out w_chan w_intr fst snd length app is_Exception exn_of_io_error].
  2-4: split; [auto|]; split; [|done]; split; [done|];
       intros (_ & _ & _ & _ & _ & (? & ? & _)); done.
  destruct (bytes_in (b "KO") d3) eqn:Hko; cbn [w_out w_chan w_intr fst snd].
  - split; [auto|]. split; [|done]. split; [done|].
    intros (_ & _ & _ & _ & _ & (? & [= <-] & ?)). congruence.
  - split; [auto|]. split; [|eauto].
    split; [intros _|done]. eauto 15.
Qed.

Lemma connect_to_emulator_succeeds_iff_witness :
  let env := fun n : nat => Answers (b "Android Console: OK") in
  let outcome := connect_to_emulator env (fun _ => u "error") (u "localhost") 5554
                   (Some (u "secret")) (mkWorld [] [] None) in
  let command := encode (u "auth " ++ default [] (Some (u "secret")) ++ [NL]) in
  (fst outcome = Ok (Some TelnetHandle) \/ fst outcome = Ok None)
  /\ (fst outcome = Ok (Some TelnetHandle) <->
      falsy (Some (u "secret")) = false /\ (exists data, command = Ok data)
      /\ handshake_accepted env)
  /\ (fst outcome = Ok (Some TelnetHandle) ->
      exists data,
        command = Ok data
        /\ w_chan (snd outcome)
           = [EvOpen (u "localhost") 5554 10; EvReadUntil (b "OK") 10; EvWrite data;
              EvReadUntil (b "OK") 10]).
Proof.
  apply (connect_to_emulator_succeeds_iff
           (fun n : nat => Answers (b "Android Console: OK")) (fun _ => u "error")
           (u "localhost") 5554 (Some (u "secret")) (mkWorld [] [] None));
    reflexivity.
Defined.

(** ** Reading until a marker *)

(** Everything the peer sends from now on, and what it sends before the
    first [recv] that does not deliver data. *)
Fixpoint sent (p : peer) : bytes :=
  match p with
  | Sends data next => data ++ sent next
  | Stalls next => sent next
  | Resets | Closed => []
  end.

Fixpoint arriving (p : peer) : bytes :=
  match p with
  | Sends data next => data ++ arriving next
  | Stalls _ | Resets | Closed => []
  end.

(** What the peer does once that data has been delivered. *)
Fixpoint afterwards (p : peer) : peer :=
  match p with
  | Sends _ next => afterwards next
  | Stalls _ | Resets | Closed => p
  end.

Lemma recv_sent (n : nat) (p : peer) (chunk : bytes) (p' : peer) :
  recv n p = (Ok chunk, p') -> sent p = chunk ++ sent p'.
Proof.
  revert chunk p'. induction p as [data next IH | | |]; intros chunk p'; simpl; try done.
  - destruct data as [|x data].
    + intros H. by apply IH.
    + intros [= <- <-].
      destruct (drop n (x :: data)) as [|y more] eqn:D.
      * rewrite <- (take_drop n (x :: data)) at 1. by rewrite D, app_nil_r.
      * cbn [sent]. rewrite <- D, app_assoc. by rewrite take_drop.
  - by intros [= <- <-].
Qed.

Lemma read_until_loop_returns (expected : bytes) (fuel : nat) :
  forall (acc : bytes) (p : peer) (data : bytes) (p' : peer),
    read_until_loop fuel expected acc p = (Ok data, p') ->
    bytes_in expected data = true
    /\ exists more, data = acc ++ more /\ sent p = more ++ sent p'.
Proof.
  induction fuel as [|fuel IH]; intros acc p data p'; simpl;
    destruct (bytes_in expected acc) eqn:Hin.
  - intros [= <- <-]. split; [done|]. exists []. by rewrite app_nil_r.
  - done.
  - intros [= <- <-]. split; [done|]. exists []. by rewrite app_nil_r.
  - destruct (recv 4096 p) as [[chunk|e|] p1] eqn:Hr; [|done..].
    intros H. destruct (IH _ _ _ _ H) as (Hd & more & -> & Hs).
    split; [done|]. exists (chunk ++ more). rewrite <- app_assoc. split; [done|].
    rewrite (recv_sent _ _ _ _ Hr), Hs. by rewrite app_assoc.
Qed.

(** X4. Whenever [read_until] returns, what it returns contains the marker
    and is exactly what the peer had sent up to the last [recv]: nothing is
    dropped and the marker is not stripped (bytes that came after it in the
    same chunk are included). With an empty marker it returns [b""] without
    receiving anything. *)
Theorem read_until_returns_all_data_read :
  forall fuel self expected timeout data self',
    read_until fuel self expected timeout = (Ok data, self') ->
    bytes_in expected data = true
    /\ sent (sock self) = data ++ sent (sock self')
    /\ sock_timeout self' = timeout
    /\ (expected = [] -> data = [] /\ sock self' = sock self).
Proof.
  intros fuel self expected timeout data self'. unfold read_until.
  destruct (read_until_loop fuel expected [] (sock self)) as [r p] eqn:Hloop.
  intros [= -> <-]. simpl.
  destruct (read_until_loop_returns _ _ _ _ _ _ Hloop) as (Hin & more & -> & Hs).
  split; [done|]. split; [done|]. split; [done|].
  intros ->. destruct fuel; simpl in Hloop; by injection Hloop as <- <-.
Qed.

Lemma read_until_returns_all_data_read_witness :
  bytes_in (b "OK") (b "Android Console" ++ b ": OK, go") = true
  /\ sent (Sends (b "Android Console") (Sends (b ": OK, go") (Stalls Closed)))
     = (b "Android Console" ++ b ": OK, go") ++ sent (Stalls Closed)
  /\ sock_timeout (mkTelnetConnection (Stalls Closed) 2) = 2
  /\ (b "OK" = [] -> b "Android Console" ++ b ": OK, go" = []
      /\ Stalls Closed = Sends (b "Android Console") (Sends (b ": OK, go") (Stalls Closed))).
Proof.
  apply (read_until_returns_all_data_read 5
           (mkTelnetConnection
              (Sends (b "Android Console") (Sends (b ": OK, go") (Stalls Closed))) 10)
           (b "OK") 2 (b "Android Console" ++ b ": OK, go")
           (mkTelnetConnection (Stalls Closed) 2)).
  by vm_compute.
Defined.

Lemma recv_arriving (n : nat) (p : peer) :
  (0 < n)%nat -> arriving p <> [] ->
  exists chunk p',
    recv n p = (Ok chunk, p') /\ chunk <> []
    /\ arriving p = chunk ++ arriving p' /\ afterwards p' = afterwards p.
Proof.
  intros Hn. induction p as [data next IH | | |]; simpl; try done.
  destruct data as [|x data]; [exact IH|]. intros _.
  exists (take n (x :: data)).
  destruct (drop n (x :: data)) as [|y more] eqn:D.
  - exists next. split; [done|]. split; [by destruct n; [lia|]|].
    rewrite <- (take_drop n (x :: data)) at 1. by rewrite D, app_nil_r.
  - exists (Sends (y :: more) next). split; [done|]. split; [by destruct n; [lia|]|].
    split; [|done]. cbn [arriving]. rewrite <- D, app_assoc. by rewrite take_drop.
Qed.

Lemma recv_no_more (n : nat) (p : peer) :
  arriving p = [] ->
  recv n p =
  match afterwards p with
  | Stalls next => (Raise TimeoutError, next)
  | Resets => (Raise OSError, Resets)
  | _ => (Ok [], Closed)
  end.
Proof.
  induction p as [data next IH | | |]; simpl; try done.
  intros [-> H]%app_eq_nil. by apply IH.
Qed.

Lemma read_until_loop_outcome (expected : bytes) (fuel : nat) :
  forall (acc : bytes) (p : peer),
    (length (arriving p) < fuel)%nat ->
    (bytes_in expected (acc ++ arriving p) = true ->
     exists data p', read_until_loop fuel expected acc p = (Ok data, p'))
    /\ (bytes_in expected (acc ++ arriving p) = false ->
        match afterwards p with
        | Stalls next =>
            read_until_loop fuel expected acc p = (Raise TimeoutError, next)
        | Resets => read_until_loop fuel expected acc p = (Raise OSError, Resets)
        | _ => True
        end).
Proof.
  induction fuel as [|fuel IH]; intros acc p Hlen; [lia|].
  simpl. destruct (bytes_in expected acc) eqn:Hin.
  - split; [eauto|]. intros H. by rewrite (bytes_in_app _ _ _ Hin) in H.
  - destruct (arriving p) as [|x rest] eqn:Ha.
    + rewrite app_nil_r, Hin. split; [done|]. intros _.
      rewrite (recv_no_more _ _ Ha). by destruct (afterwards p).
    + destruct (recv_arriving 4096 p) as (chunk & p' & Hr & Hne & Hsplit & Haft);
        [lia | by rewrite Ha |].
      rewrite Hr. rewrite Ha in Hsplit. rewrite Hsplit, app_assoc, <- Haft.
      apply IH.
      assert (length (x :: rest) = length chunk + length (arriving p'))%nat
        by (by rewrite Hsplit, length_app).
      destruct chunk; [done|]. simpl in *. lia.
Qed.

(** X5. What [read_until] does is decided by the data that arrives before the
    first [recv] that delivers none. If the marker is in that data, it
    returns, after at most one [recv] per byte. If not, and the peer then
    stalls for longer than the timeout, it raises a timeout error; if the
    connection then breaks, it raises [OSError]. *)
Theorem read_until_outcome :
  forall fuel self expected timeout,
    (length (arriving (sock self)) < fuel)%nat ->
    let outcome := fst (read_until fuel self expected timeout) in
    (bytes_in expected (arriving (sock self)) = true ->
     exists data, outcome = Ok data)
    /\ (bytes_in expected (arriving (sock self)) = false ->
        match afterwards (sock self) with
        | Stalls _ => outcome = Raise TimeoutError
        | Resets => outcome = Raise OSError
        | _ => True
        end).
Proof.
  intros fuel self expected timeout Hlen. unfold read_until.
  destruct (read_until_loop_outcome expected fuel [] (sock self) Hlen) as [Hyes Hno].
  simpl in Hyes, Hno. split.
  - intros H. destruct (Hyes H) as (data & p' & ->). simpl. eauto.
  - intros H. specialize (Hno H).
    destruct (afterwards (sock self)); try done; by rewrite Hno.
Qed.

Lemma read_until_outcome_witness :
  let self := mkTelnetConnection (Sends (b "Android Console: type") (Stalls Closed)) 10 in
  let outcome := fst (read_until 40 self (b "OK") 10) in
  (bytes_in (b "OK") (arriving (sock self)) = true -> exists data, outcome = Ok data)
  /\ (bytes_in (b "OK") (arriving (sock self)) = false ->
      match afterwards (sock self) with
      | Stalls _ => outcome = Raise TimeoutError
      | Resets => outcome = Raise OSError
      | _ => True
      end).
Proof.
  apply (read_until_outcome 40
           (mkTelnetConnection (Sends (b "Android Console: type") (Stalls Closed)) 10)
           (b "OK") 10).
  vm_compute. lia.
Defined.

(** ** The buffer before it is full, and without capacity *)

(** X6. A buffer of capacity [N >= 1] accepts any number of values, and after
    [n] insertions [get_display_values] is the last [N] entries of [N] zeros
    followed by the inserted values: zeros first while fewer than [N] values
    have been inserted, always [N] entries, oldest first. The cursor is at
    [n mod N], and [get_current_value] is the value inserted last, [None]
    when nothing was inserted. *)
Theorem buffer_holds_last_values :
  forall (N : Z) (values : list float),
    1 <= N ->
    exists self,
      add_values (DataBuffer_init N) values = Ok self
      /\ get_display_values self
         = drop (length values) (list_repeat 0%float N ++ values)
      /\ Z.of_nat (length (get_display_values self)) = N
      /\ index self = Z.of_nat (length values) mod N
      /\ get_current_value self = Ok (last values).
Proof.
  intros N values HN.
  destruct (add_values_spec N values (DataBuffer_init N) (DataBuffer_init_wf N HN))
    as (self & Hadd & Hwf & Hidx & Hdisp & Hcur).
  exists self. split; [done|].
  split; [by rewrite Hdisp, get_display_values_init|].
  split; [by apply get_display_values_length|].
  split; [done|].
  destruct values as [|v values]; [|by apply Hcur].
  simpl in Hadd. by injection Hadd as <-.
Qed.

Lemma buffer_holds_last_values_witness :
  exists self,
    add_values (DataBuffer_init 4) [0.5; 0.25]%float = Ok self
    /\ get_display_values self
       = drop (length [0.5; 0.25]%float) (list_repeat 0%float 4 ++ [0.5; 0.25]%float)
    /\ Z.of_nat (length (get_display_values self)) = 4
    /\ index self = Z.of_nat (length [0.5; 0.25]%float) mod 4
    /\ get_current_value self = Ok (last [0.5; 0.25]%float).
Proof. apply (buffer_holds_last_values 4 [0.5; 0.25]%float). lia. Defined.

(** X7. A buffer constructed with a capacity of zero or less has no storage:
    it displays nothing, has no current value, and every [add_value] raises
    [IndexError]. *)
Theorem buffer_without_capacity :
  forall (size : Z) (v : float),
    size <= 0 ->
    buffer (DataBuffer_init size) = []
    /\ get_display_values (DataBuffer_init size) = []
    /\ get_current_value (DataBuffer_init size) = Ok None
    /\ add_value (DataBuffer_init size) v = Raise IndexError.
Proof.
  intros size v H.
  assert (E : buffer (DataBuffer_init size) = []).
  { unfold DataBuffer_init, list_repeat; simpl.
    by replace (Z.to_nat size) with 0%nat by lia. }
  split; [done|]. split; [|split; [done|]].
  - unfold get_display_values, slice_from, slice_to. by rewrite E.
  - unfold add_value, list_set, list_index. by rewrite E.
Qed.

Lemma buffer_without_capacity_witness :
  buffer (DataBuffer_init (-3)) = []
  /\ get_display_values (DataBuffer_init (-3)) = []
  /\ get_current_value (DataBuffer_init (-3)) = Ok None
  /\ add_value (DataBuffer_init (-3)) 0.5 = Raise IndexError.
Proof. apply (buffer_without_capacity (-3) 0.5). lia. Defined.

(** ** Text without control characters *)

(** A printable ASCII character, and a string made of them: it has no line
    break in it, and its UTF-8 encoding is itself. *)
Definition printable (c : N) : bool := (32 <=? c)%N && (c <? 127)%N.
Definition is_text (s : str) : bool := forallb printable s.

Lemma is_text_app (s t : str) : is_text (s ++ t) = is_text s && is_text t.
Proof. apply forallb_app. Qed.

Lemma is_text_cons (c : N) (s : str) : is_text (c :: s) = printable c && is_text s.
Proof. done. Qed.

Lemma is_text_str_of_uint (d : Decimal.uint) : is_text (str_of_uint d) = true.
Proof. induction d; simpl; done. Qed.

Lemma is_text_decimal (n : Z) : is_text (decimal n) = true.
Proof. apply is_text_str_of_uint. Qed.

Lemma printable_digit (n : Z) : 0 <= n < 10 -> printable (digit n) = true.
Proof.
  intros H. unfold printable, digit.
  apply andb_true_iff. split; [apply N.leb_le | apply N.ltb_lt]; lia.
Qed.

Lemma is_text_fixed2 (f : float) : is_text (snd (fixed2 f)) = true.
Proof.
  unfold fixed2. destruct (Prim2SF f) as [s|s| |s m e]; try done. cbn [snd].
  match goal with |- context [decimal (?n / 100)] => generalize n end. intros n.
  rewrite !is_text_app, is_text_decimal. simpl.
  rewrite !printable_digit; [done| |].
  - assert (0 <= n mod 10 < 10) by (apply Z.mod_pos_bound; lia). lia.
  - assert (0 <= n mod 100 < 100) by (apply Z.mod_pos_bound; lia).
    split; [apply Z.div_pos; lia | apply Z.div_lt_upper_bound; lia].
Qed.

Lemma is_text_format_2f (f : float) (t : str) :
  format_2f (Float f) = Ok t -> is_text t = true.
Proof.
  unfold format_2f; simpl. pose proof (is_text_fixed2 f) as H.
  destruct (fixed2 f) as [s body]. simpl in H. intros [= <-].
  rewrite is_text_app, H. by destruct s.
Qed.

Lemma is_text_pad_left (n : nat) (s : str) : is_text s = true -> is_text (pad_left n s) = true.
Proof.
  intros H. unfold pad_left. rewrite is_text_app, H, andb_true_r.
  induction (n - length s)%nat; simpl; done.
Qed.

Lemma is_text_format_5_2f (f : float) (t : str) :
  format_5_2f (Float f) = Ok t -> is_text t = true.
Proof.
  unfold format_5_2f. destruct (format_2f (Float f)) as [t0| |] eqn:E; try done.
  simpl. intros [= <-]. apply is_text_pad_left. by apply (is_text_format_2f f).
Qed.

Lemma is_text_format_plus_2f (f : float) (t : str) :
  format_plus_2f (Float f) = Ok t -> is_text t = true.
Proof.
  unfold format_plus_2f; simpl. pose proof (is_text_fixed2 f) as H.
  destruct (fixed2 f) as [s body]. simpl in H. intros [= <-].
  rewrite is_text_app, H. by destruct s.
Qed.

Lemma is_text_str_repeat (s : str) (n : Z) :
  is_text s = true -> is_text (str_repeat s n) = true.
Proof.
  intros H. unfold str_repeat.
  induction (Z.to_nat n); simpl; [done|]. by rewrite is_text_app, H.
Qed.

Lemma is_text_no_newline (s : str) : is_text s = true -> NL ∉ s.
Proof.
  intros H Hin. unfold is_text in H. rewrite forallb_forall in H.
  apply list_elem_of_In in Hin. by specialize (H _ Hin).
Qed.

Lemma encode_char_printable (c : N) :
  printable c = true -> encode_char c = Ok [byte_of_N c].
Proof.
  unfold printable, encode_char. intros [_ H%N.ltb_lt]%andb_true_iff.
  destruct (N.ltb_spec c 128); [done|lia].
Qed.

Lemma encode_text (s : str) :
  is_text s = true -> encode s = Ok (map byte_of_N s).
Proof.
  induction s as [|c s IH]; [done|].
  rewrite is_text_cons. intros [Hc Hs]%andb_true_iff. simpl.
  by rewrite (encode_char_printable c Hc), (IH Hs).
Qed.

Definition is_ascii (s : str) : bool := forallb (fun c => (c <? 128)%N) s.

Lemma is_text_ascii (s : str) : is_text s = true -> is_ascii s = true.
Proof.
  unfold is_text, is_ascii. rewrite !forallb_forall. intros H c Hc.
  specialize (H c Hc). unfold printable in H.
  apply andb_true_iff in H as [_ H%N.ltb_lt]. apply N.ltb_lt. lia.
Qed.

Lemma encode_ascii (s : str) :
  is_ascii s = true -> encode s = Ok (map byte_of_N s).
Proof.
  induction s as [|c s IH]; [done|]. simpl.
  intros [Hc Hs]%andb_true_iff. unfold encode_char. rewrite Hc. simpl.
  by rewrite (IH Hs).
Qed.

(** ** One iteration of the loop *)

Lemma bind_inv_Ok {A B} (m : M A) (k : A -> M B) (w w' : world) (c : B) :
  bind m k w = (Ok c, w') ->
  exists a w1, m w = (Ok a, w1) /\ k a w1 = (Ok c, w').
Proof.
  unfold bind. destruct (m w) as [[a|e|] w1]; [eauto|done..].
Qed.

Lemma lift_inv_Ok {A} (r : result A) (w w' : world) (a : A) :
  lift r w = (Ok a, w') -> r = Ok a /\ w' = w.
Proof. by intros [= -> ->]. Qed.

Lemma no_events {A} (m : M A) (w : world) :
  emits (fun _ => False) m -> w_chan (snd (m w)) = w_chan w.
Proof.
  intros H. destruct (H w) as (evs & -> & HF).
  destruct evs as [|ev evs]; [by rewrite app_nil_r|]. by inversion HF.
Qed.

Lemma generate_walking_acceleration_axes libm_sin step x y z :
  generate_walking_acceleration libm_sin step = Ok (x, y, z) ->
  x = 0%float /\ z = 0%float.
Proof.
  unfold generate_walking_acceleration.
  destruct (num_mul _ _) as [a| |]; [|done..]. cbn [rbind].
  destruct (to_float a) as [f| |]; [|done..]. cbn [rbind].
  destruct (math_sin libm_sin f) as [s| |]; [|done..]. cbn [rbind].
  by intros [= <- _ <-].
Qed.

(** The command of a tick, for the vertical acceleration [y]. *)
Definition tick_command (y : float) : result bytes :=
  do c <- sensor_command (u "acceleration") (Float 0) (Float y) (Float 0);
  encode c.

Lemma tick_command_text (y : float) :
  exists t,
    format_2f (Float y) = Ok t
    /\ tick_command y
       = Ok (map byte_of_N
               (u "sensor set acceleration 0.00:" ++ t ++ u ":0.00" ++ [NL])).
Proof.
  destruct (format_2f_Float y) as [t Ht]. exists t. split; [done|].
  unfold tick_command, sensor_command. rewrite Ht.
  change (format_2f (Float 0)) with (Ok (A:=str) (u "0.00")). cbn [rbind].
  pose proof (is_text_format_2f y t Ht) as Htext.
  rewrite encode_ascii; [reflexivity|].
  change (is_ascii (u "sensor set acceleration 0.00:" ++ t ++ u ":0.00" ++ [NL]) = true).
  unfold is_ascii. rewrite !forallb_app.
  fold (is_ascii t). rewrite (is_text_ascii t Htext). done.
Qed.

(** X8. Every completed iteration of the simulation loop has sent exactly one
    command, [sensor set acceleration 0.00:<y>:0.00] and a newline with the
    [y] of the generator for the current step to two decimals, followed by
    the read of its acknowledgement unless the write failed; it has advanced
    the step counter by one, and it has stored that [y] and whether it
    exceeded the previous [y] for the step detection of the next
    iteration. *)
Theorem completed_tick :
  forall env exn_text libm_sin emulator st w st' w',
    loop_body env exn_text libm_sin emulator 1.25 st w = (Ok st', w') ->
    exists (y : float) (data : bytes),
      generate_walking_acceleration libm_sin (step_counter st) = Ok (0%float, y, 0%float)
      /\ tick_command y = Ok data
      /\ (w_chan w' = w_chan w ++ [EvWrite data]
          \/ w_chan w' = w_chan w ++ [EvWrite data; EvReadUntil (b "OK") 2])
      /\ step_counter st' = step_counter st + 1
      /\ previous_y st' = y
      /\ was_rising st' = float_gt y (previous_y st).
Proof.
  intros env exn_text libm_sin emulator st w st' w'. unfold loop_body, sleep.
  intros ([[x y] z] & w1 & [Hgen ->]%lift_inv_Ok & H)%bind_inv_Ok.
  destruct (generate_walking_acceleration_axes _ _ _ _ _ Hgen) as [-> ->].
  apply bind_inv_Ok in H as ([] & w2 & Hset & H).
  apply bind_inv_Ok in H as (s & w3 & [_ ->]%lift_inv_Ok & H).
  apply bind_inv_Ok in H as ([] & w4 & Hint & H).
  apply bind_inv_Ok in H as (g' & w5 & Hplot & H).
  apply bind_inv_Ok in H as ([] & w6 & Hsleep & H).
  injection H as <- <-.
  exists y.
  destruct (tick_command_text y) as (t & Ht & Hcmd). eexists. split; [done|].
  split; [exact Hcmd|].
  assert (Hchan : w_chan w6 = w_chan w2).
  { pose proof (no_events _ w5 (emits_interruptible _)) as E6.
    unfold sleep in Hsleep. rewrite Hsleep in E6. simpl in E6.
    pose proof (no_events _ w4
                  (emits_plot _ (dual_graph st) y s
                     (was_rising st && negb (float_gt y (previous_y st))))) as E5.
    rewrite Hplot in E5. simpl in E5.
    pose proof (no_events _ w2 (emits_interruptible _)) as E4.
    rewrite Hint in E4. simpl in E4. congruence. }
  rewrite Hchan.
  destruct (set_sensor_data_outcome env exn_text emulator
              (u "acceleration") (Float 0) (Float y) (Float 0) w)
    as (_ & _ & evs & Hevs & _ & Hsent).
  rewrite Hset in Hevs, Hsent. cbn [fst snd] in Hevs, Hsent.
  rewrite Hevs.
  destruct (Hsent eq_refl _ Hcmd) as [[-> _] | ->]; auto.
Qed.

(** A graph and a first loop state to run examples on: the [small] preset. *)
Definition sample_graph : DualGraph :=
  match DualGraph_init 30 (Float (Y_BASELINE - AMPLITUDE), Float (Y_BASELINE + AMPLITUDE))
          40 7 (Int (-1), Int 1) with
  | Ok g => g
  | _ => mkDualGraph (BarGraph_init 0 (Int 0, Int 0) [])
           (mkSineWaveGraph 0 0 (Int 0) (Int 0) (DataBuffer_init 0) [])
           ShoeAnimation_init true 0
  end.

Definition sample_state : loop_state := mkLoopState 0 Y_BASELINE false sample_graph.
Definition sample_env : nat -> reply := fun _ => Answers (b "OK").
Definition sample_tick : result loop_state * world :=
  loop_body sample_env (fun _ => u "error") (fun x => x) TelnetHandle 1.25
    sample_state (mkWorld [] [] None).

Lemma completed_tick_witness :
  exists (y : float) (data : bytes),
    generate_walking_acceleration (fun x => x) (step_counter sample_state)
    = Ok (0%float, y, 0%float)
    /\ tick_command y = Ok data
    /\ (w_chan (snd sample_tick) = [] ++ [EvWrite data]
        \/ w_chan (snd sample_tick) = [] ++ [EvWrite data; EvReadUntil (b "OK") 2])
    /\ step_counter (match fst sample_tick with Ok s => s | _ => sample_state end)
       = step_counter sample_state + 1
    /\ previous_y (match fst sample_tick with Ok s => s | _ => sample_state end) = y
    /\ was_rising (match fst sample_tick with Ok s => s | _ => sample_state end)
       = float_gt y (previous_y sample_state).
Proof.
  apply (completed_tick sample_env (fun _ => u "error") (fun x => x) TelnetHandle
           sample_state (mkWorld [] [] None)
           (match fst sample_tick with Ok s => s | _ => sample_state end)
           (snd sample_tick)).
  by vm_compute.
Defined.

(** ** What one call of [plot] writes to the terminal *)

(** A string that does not break the line. *)
Definition one_line (s : str) : bool := forallb (fun c => negb (c =? NL)%N) s.

Lemma one_line_app (s t : str) : one_line (s ++ t) = one_line s && one_line t.
Proof. apply forallb_app. Qed.

Lemma is_text_one_line (s : str) : is_text s = true -> one_line s = true.
Proof.
  unfold is_text, one_line. rewrite !forallb_forall. intros H c Hc.
  specialize (H c Hc). unfold printable in H. unfold NL.
  apply andb_true_iff in H as [H _]. apply N.leb_le in H.
  apply negb_true_iff, N.eqb_neq. lia.
Qed.

Lemma is_text_format_5_2f_num (x : num) (t : str) :
  format_5_2f x = Ok t -> is_text t = true.
Proof.
  destruct x as [z|f]; [|apply is_text_format_5_2f].
  unfold format_5_2f, format_2f. cbn [to_float].
  destruct (float_of_int z) as [f| |] eqn:E; [|done..]. cbn [rbind].
  intros H. apply (is_text_format_5_2f f). unfold format_5_2f, format_2f.
  exact H.
Qed.

Lemma one_line_row_label min_val max_val height i label :
  row_label min_val max_val height i = Ok label -> one_line label = true.
Proof.
  unfold row_label.
  destruct (num_sub max_val min_val) as [span| |]; [|done..]. cbn [rbind].
  destruct (num_mul _ span) as [scaled| |]; [|done..]. cbn [rbind].
  destruct (num_truediv scaled _) as [offset| |]; [|done..]. cbn [rbind].
  destruct (num_sub max_val offset) as [row_value| |]; [|done..]. cbn [rbind].
  destruct (num_lt _ _).
  - intros [= <-]. by vm_compute.
  - destruct (format_5_2f row_value) as [t| |] eqn:E; [|done..]. cbn [rbind].
    intros [= <-]. apply is_text_one_line. rewrite is_text_app.
    rewrite (is_text_format_5_2f_num _ _ E). by vm_compute.
Qed.

Lemma for_append_inv {A B} (f : A -> result B) (P : B -> Prop) (l : list A) ys :
  (forall x y, f x = Ok y -> P y) ->
  for_append f l = Ok ys -> Forall P ys /\ length ys = length l.
Proof.
  intros Hf. revert ys. induction l as [|x l IH]; simpl; intros ys.
  - by intros [= <-].
  - destruct (f x) as [y| |] eqn:E; [|done..]. cbn [rbind].
    destruct (for_append f l) as [ys'| |]; [|done..]. cbn [rbind].
    intros [= <-]. destruct (IH ys' eq_refl) as [H1 H2].
    split; [constructor; eauto | simpl; by rewrite H2].
Qed.

Abbreviation one_liners := (Forall (fun s : str => one_line s = true)).

Lemma list_get_inv {A} (l : list A) (i : Z) (x : A) :
  list_get l i = Ok x -> x ∈ l.
Proof.
  unfold list_get. destruct (list_index l i) as [k| |]; [|done..]. cbn [rbind].
  destruct (l !! k) eqn:E; [|done]. intros [= <-]. by eapply list_elem_of_lookup_2.
Qed.

Lemma list_set_inv {A} (P : A -> Prop) (l l' : list A) (i : Z) (v : A) :
  list_set l i v = Ok l' -> Forall P l -> P v ->
  Forall P l' /\ length l' = length l.
Proof.
  unfold list_set. destruct (list_index l i) as [k| |]; [|done..]. cbn [rbind].
  intros [= <-] Hl Hv. split; [by apply Forall_insert | by rewrite length_insert].
Qed.

Lemma one_line_trail_char (age : Z) : (trail_char age =? NL)%N = false.
Proof. unfold trail_char. by repeat case_match. Qed.

Lemma plot_point_rows g n i value rows rows' :
  plot_point g n i value rows = Ok rows' -> one_liners rows ->
  one_liners rows' /\ length rows' = length rows.
Proof.
  unfold plot_point. intros H Hrows.
  destruct (_value_to_row g value) as [t| |]; [|done..]. cbn [rbind] in H.
  destruct (py_round t) as [row_idx| |]; [|done..]. cbn [rbind] in H.
  destruct (_ && _); [|by injection H as <-].
  destruct (list_get (row_labels g) 0) as [label0| |]; [|done..]. cbn [rbind] in H.
  destruct (list_get rows row_idx) as [row| |] eqn:Erow; [|done..]. cbn [rbind] in H.
  destruct (_ <? _); [|by injection H as <-].
  destruct (list_set row _ _) as [row_list| |] eqn:Eset; [|done..]. cbn [rbind] in H.
  apply list_get_inv in Erow.
  assert (one_line row = true) as Hrow.
  { rewrite Forall_forall in Hrows. by apply Hrows. }
  apply (list_set_inv (fun s => one_line s = true)) in H; [done..|].
  unfold one_line in *. rewrite forallb_forall in Hrow.
  apply (list_set_inv (fun c => negb (c =? NL)%N = true)) in Eset as [Hs _].
  - apply forallb_forall. intros c Hc. rewrite Forall_forall in Hs.
    by apply Hs, list_elem_of_In.
  - apply Forall_forall. intros c Hc. apply Hrow. by apply list_elem_of_In.
  - by rewrite one_line_trail_char.
Qed.

Lemma plot_points_rows g n values : forall i rows rows',
  plot_points g n i values rows = Ok rows' -> one_liners rows ->
  one_liners rows' /\ length rows' = length rows.
Proof.
  induction values as [|v values IH]; simpl; intros i rows rows'.
  - by intros [= <-].
  - destruct (plot_point g n i v rows) as [rows1| |] eqn:E; [|done..].
    cbn [rbind]. intros H Hrows.
    destruct (plot_point_rows _ _ _ _ _ _ E Hrows) as [H1 H2].
    destruct (IH _ _ _ H H1) as [H3 H4]. split; [done | congruence].
Qed.

Lemma sine_rows_rows g rows :
  sine_rows g = Ok rows -> one_liners (row_labels g) ->
  one_liners rows /\ length rows = length (row_labels g).
Proof.
  unfold sine_rows. intros H Hlabels.
  set (rows0 := map _ (row_labels g)) in H.
  assert (one_liners rows0 /\ length rows0 = length (row_labels g)) as [H0 L0].
  { split; [|by unfold rows0; rewrite length_map].
    unfold rows0. apply Forall_fmap. eapply Forall_impl; [exact Hlabels|].
    intros s Hs. simpl. rewrite one_line_app, Hs. simpl.
    apply is_text_one_line, is_text_str_repeat. by vm_compute. }
  destruct (if has_data (sine_buffer g) then _ else _) as [rows1| |] eqn:E1;
    [|done..]. cbn [rbind] in H.
  assert (one_liners rows1 /\ length rows1 = length (row_labels g)) as [H1 L1].
  { destruct (has_data (sine_buffer g)).
    - destruct (plot_points_rows _ _ _ _ _ _ E1 H0). split; [done | congruence].
    - by injection E1 as <-. }
  destruct (get_current_value (sine_buffer g)) as [[v|]| |]; [| |done..];
    cbn [rbind] in H; [|by injection H as <-].
  destruct (_value_to_row g v) as [t| |]; [|done..]. cbn [rbind] in H.
  destruct (py_round t) as [current_row| |]; [|done..]. cbn [rbind] in H.
  destruct (_ && _); [|by injection H as <-].
  destruct (list_get rows1 current_row) as [row| |] eqn:Erow; [|done..].
  cbn [rbind] in H.
  destruct (format_plus_2f (Float v)) as [t'| |] eqn:Et; [|done..].
  cbn [rbind] in H.
  apply list_get_inv in Erow.
  assert (one_line row = true) as Hrow.
  { rewrite Forall_forall in H1. by apply H1. }
  apply (list_set_inv (fun s => one_line s = true)) in H as [H2 L2];
    [split; [done | congruence] | done |].
  rewrite !one_line_app, Hrow. simpl.
  rewrite (is_text_one_line t'); [by vm_compute|].
  by apply (is_text_format_plus_2f v).
Qed.

(** One terminal line as [plot] writes it: the line is cleared, then
    written. *)
Definition line (s : str) : str := CLEAR_LINE ++ s ++ [NL].

(** The escape sequence that moves the cursor [n] lines up. *)
Definition cursor_up (n : Z) : str := ESC :: u "[" ++ str_of_int n ++ u "A".

Lemma print_rows_out (rows : list str) : forall w,
  print_rows rows w =
  (Ok tt, mkWorld (w_out w ++ flat_map (fun row => [CLEAR_LINE; row ++ [NL]]) rows)
                  (w_chan w) (w_intr w)).
Proof.
  induction rows as [|row rows IH]; intros w.
  - destruct w. simpl. unfold ret. simpl. by rewrite app_nil_r.
  - cbn [print_rows]. unfold bind, print, print_end. cbn [fst snd].
    rewrite IH. cbn [w_out w_chan w_intr flat_map].
    by rewrite <- !app_assoc.
Qed.

Lemma concat_rows (rows : list str) :
  concat (flat_map (fun row => [CLEAR_LINE; row ++ [NL]]) rows)
  = concat (map line rows).
Proof.
  induction rows as [|row rows IH]; [done|].
  cbn [flat_map map concat app]. rewrite IH. unfold line.
  by rewrite <- !app_assoc.
Qed.

(** What stays the same from one call of [plot] to the next, for a graph
    constructed with the sine height [sh]. *)
Definition rendering (sh : Z) (g : DualGraph) : Prop :=
  shoe_animation g = ShoeAnimation_init /\
  one_liners (row_labels (sine_graph g)) /\
  length (row_labels (sine_graph g)) = Z.to_nat sh /\
  total_lines g = 4 + sh.

Lemma DualGraph_init_rendering bw br sw sh sr g :
  DualGraph_init bw br sw sh sr = Ok g -> rendering sh g /\ first_render g = true.
Proof.
  unfold DualGraph_init, SineWaveGraph_init. destruct sr as [min_val max_val].
  destruct (for_append _ _) as [labels| |] eqn:E; [|done..]. cbn [rbind].
  intros [= <-]. cbn.
  apply (for_append_inv _ (fun s => one_line s = true)) in E as [H1 H2].
  - rewrite length_range in H2. done.
  - intros i label. apply one_line_row_label.
Qed.

(** What a completed call of [plot] has printed, print by print. *)
Definition plot_prints (first : bool) (total : Z) (bar shoe landing : str)
    (rows : list str) : list str :=
  (if first then [] else [cursor_up total])
  ++ [CLEAR_LINE; bar ++ [NL]; CLEAR_LINE; shoe ++ [NL];
      CLEAR_LINE; landing ++ [NL]; CLEAR_LINE ++ [NL]]
  ++ flat_map (fun row => [CLEAR_LINE; row ++ [NL]]) rows.

Lemma plot_items g a s d w g' w' :
  plot g a s d w = (Ok g', w') ->
  exists t len shoe buf rows,
    format_5_2f (Float a) = Ok t /\
    bar_length (bar_graph g) a = Ok len /\
    get_shoe_state (shoe_animation g) s d = Ok shoe /\
    add_value (sine_buffer (sine_graph g)) s = Ok buf /\
    sine_rows (with_buffer (sine_graph g) buf) = Ok rows /\
    g' = mkDualGraph (bar_graph g) (with_buffer (sine_graph g) buf)
           (shoe_animation g) false (total_lines g) /\
    w' = mkWorld
           (w_out w
            ++ plot_prints (first_render g) (total_lines g)
                 (u "Accel: " ++ t ++ u " | " ++ str_repeat (u "#") len)
                 shoe (get_landing_line (shoe_animation g) d) rows)
           (w_chan w) (w_intr w).
Proof.
  intros H. unfold plot in H.
  apply bind_inv_Ok in H as (buf & w1 & H1 & H).
  apply lift_inv_Ok in H1 as [Ebuf ->].
  cbn [bar_graph sine_graph shoe_animation first_render total_lines] in H.
  apply bind_inv_Ok in H as ([] & w1 & H1 & H).
  apply bind_inv_Ok in H as ([] & w2 & H2 & H).
  apply bind_inv_Ok in H as (len & w3 & H3 & H).
  apply lift_inv_Ok in H3 as [Elen ->].
  apply bind_inv_Ok in H as (t & w3 & H3 & H).
  apply lift_inv_Ok in H3 as [Et ->].
  apply bind_inv_Ok in H as ([] & w3 & H3 & H).
  apply bind_inv_Ok in H as ([] & w4 & H4 & H).
  apply bind_inv_Ok in H as (shoe_state & w5 & H5 & H).
  apply lift_inv_Ok in H5 as [Eshoe ->].
  apply bind_inv_Ok in H as ([] & w5 & H5 & H).
  apply bind_inv_Ok in H as ([] & w6 & H6 & H).
  apply bind_inv_Ok in H as ([] & w7 & H7 & H).
  apply bind_inv_Ok in H as ([] & w8 & H8 & H).
  apply bind_inv_Ok in H as ([] & w9 & H9 & H).
  injection H as <- <-.
  unfold _render_sine_wave in H9.
  apply bind_inv_Ok in H9 as (rows & w10 & H10 & H9).
  apply lift_inv_Ok in H10 as [Erows ->].
  rewrite print_rows_out in H9. injection H9 as <-.
  cbn [sine_graph] in Erows.
  exists t, len, shoe_state, buf, rows.
  do 6 (split; [done|]).
  assert (w8 = snd (print CLEAR_LINE w7)) as -> by (by rewrite H8).
  assert (w7 = snd (print (get_landing_line (shoe_animation g) d) w6)) as ->
    by (by rewrite H7).
  assert (w6 = snd (print_end CLEAR_LINE [] w5)) as -> by (by rewrite H6).
  assert (w5 = snd (print shoe_state w4)) as -> by (by rewrite H5).
  assert (w4 = snd (print_end CLEAR_LINE [] w3)) as -> by (by rewrite H4).
  assert (w3 = snd (print (u "Accel: " ++ t ++ u " | "
                           ++ str_repeat (u "#") len) w2)) as ->
    by (by rewrite H3).
  assert (w2 = snd (print_end CLEAR_LINE [] w1)) as -> by (by rewrite H2).
  assert (w1 = mkWorld (w_out w ++ (if first_render g then []
                                    else [cursor_up (total_lines g)]))
                 (w_chan w) (w_intr w)) as ->.
  { destruct (first_render g); cbn [negb] in H1.
    - injection H1 as <-. destruct w. cbn. by rewrite app_nil_r.
    - assert (w1 = snd (print_end (cursor_up (total_lines g)) [] w)) as ->
        by (by unfold cursor_up; rewrite H1).
      unfold print_end. cbn [snd]. by rewrite app_nil_r. }
  unfold print, print_end, plot_prints. cbn [snd w_out w_chan w_intr].
  f_equal. rewrite !app_nil_r, <- !app_assoc. reflexivity.
Qed.

Lemma plot_lines sh g a s d w g' w' :
  rendering sh g -> plot g a s d w = (Ok g', w') ->
  rendering sh g' /\ first_render g' = false /\
  exists t len shoe buf rows,
    format_5_2f (Float a) = Ok t /\
    bar_length (bar_graph g) a = Ok len /\
    get_shoe_state ShoeAnimation_init s d = Ok shoe /\
    add_value (sine_buffer (sine_graph g)) s = Ok buf /\
    sine_rows (with_buffer (sine_graph g) buf) = Ok rows /\
    sine_graph g' = with_buffer (sine_graph g) buf /\
    length rows = Z.to_nat sh /\
    let bar := u "Accel: " ++ t ++ u " | " ++ str_repeat (u "#") len in
    let landing := get_landing_line ShoeAnimation_init d in
    one_liners (bar :: shoe :: landing :: rows) /\
    concat (w_out w') =
      concat (w_out w)
      ++ (if first_render g then [] else cursor_up (4 + sh))
      ++ concat (map line (bar :: shoe :: landing :: [] :: rows)).
Proof.
  intros (Hshoe & Hlab & Hlen & Htot) H.
  apply plot_items in H
    as (t & len & shoe & buf & rows & Et & Elen & Eshoe & Ebuf & Erows & -> & ->).
  rewrite Hshoe, Htot in *.
  destruct (sine_rows_rows _ _ Erows) as [Hrows Lrows]; [done|].
  cbn [with_buffer row_labels] in Lrows.
  split; [done|]. split; [done|].
  exists t, len, shoe, buf, rows.
  do 7 (split; [done || congruence|]). split.
  - repeat constructor; [| | |exact Hrows].
    + apply is_text_one_line. rewrite !is_text_app.
      rewrite (is_text_format_5_2f _ _ Et), is_text_str_repeat; by vm_compute.
    + rewrite get_shoe_state_table in Eshoe. injection Eshoe as <-.
      by repeat case_match; vm_compute.
    + by destruct d; vm_compute.
  - cbn [w_out]. unfold plot_prints. rewrite !concat_app, concat_rows.
    cbn [map concat]. unfold line.
    destruct (first_render g); cbn [concat app]; rewrite ?app_nil_r;
      by rewrite <- ?app_assoc.
Qed.

(** The graphs of a run: the one [DualGraph] constructs, then the one each
    completed call of [plot] leaves. *)
Inductive drawn (g0 : DualGraph) : DualGraph -> Prop :=
  | drawn_first : drawn g0 g0
  | drawn_next g a s d w g' w' :
      drawn g0 g -> plot g a s d w = (Ok g', w') -> drawn g0 g'.

Lemma drawn_rendering sh g0 g :
  rendering sh g0 -> first_render g0 = true -> drawn g0 g ->
  rendering sh g /\ (first_render g = true <-> g = g0).
Proof.
  intros H0 F0. induction 1 as [|g a s d w g' w' _ [IH _] Hplot].
  - done.
  - destruct (plot_lines _ _ _ _ _ _ _ _ IH Hplot) as (H1 & H2 & _).
    split; [done|]. rewrite H2. split; [done|]. intros ->. congruence.
Qed.

(** X9. In a run with a graph constructed for the sine height [sh], every
    call of [plot] that returns has written exactly [4 + max(0, sh)] lines,
    each cleared first and ended by one line break: the bar, the shoe state,
    the landing line, an empty line and the rows of the sine graph.  Every
    call but the first one starts by moving the cursor [4 + sh] lines up;
    the two counts agree when [sh] is not negative. *)
Theorem plot_emits_fixed_number_of_lines bw br sw sh sr g0 g a s d w g' w' :
  DualGraph_init bw br sw sh sr = Ok g0 ->
  drawn g0 g ->
  plot g a s d w = (Ok g', w') ->
  (first_render g = true <-> g = g0) /\
  exists t len shoe buf rows,
    format_5_2f (Float a) = Ok t /\
    bar_length (bar_graph g) a = Ok len /\
    get_shoe_state ShoeAnimation_init s d = Ok shoe /\
    add_value (sine_buffer (sine_graph g)) s = Ok buf /\
    sine_rows (with_buffer (sine_graph g) buf) = Ok rows /\
    sine_graph g' = with_buffer (sine_graph g) buf /\
    length rows = Z.to_nat sh /\
    let bar := u "Accel: " ++ t ++ u " | " ++ str_repeat (u "#") len in
    let landing := get_landing_line ShoeAnimation_init d in
    one_liners (bar :: shoe :: landing :: rows) /\
    concat (w_out w') =
      concat (w_out w)
      ++ (if first_render g then [] else cursor_up (4 + sh))
      ++ concat (map line (bar :: shoe :: landing :: [] :: rows)).
Proof.
  intros Hinit Hdrawn Hplot.
  apply DualGraph_init_rendering in Hinit as [H0 F0].
  destruct (drawn_rendering _ _ _ H0 F0 Hdrawn) as [Hg Hfirst].
  split; [done|].
  by destruct (plot_lines _ _ _ _ _ _ _ _ Hg Hplot) as (_ & _ & H).
Qed.


Definition sample_plot : result DualGraph * world :=
  plot sample_graph 9.8 0 false (mkWorld [] [] None).
Definition sample_drawn : DualGraph :=
  match fst sample_plot with Ok g => g | _ => sample_graph end.
Definition sample_replot : result DualGraph * world :=
  plot sample_drawn 11.5 0.75 true (snd sample_plot).

Lemma plot_emits_fixed_number_of_lines_witness :
  (first_render sample_drawn = true <-> sample_drawn = sample_graph) /\
  exists t len shoe buf rows,
    format_5_2f (Float 11.5) = Ok t /\
    bar_length (bar_graph sample_drawn) 11.5 = Ok len /\
    get_shoe_state ShoeAnimation_init 0.75 true = Ok shoe /\
    add_value (sine_buffer (sine_graph sample_drawn)) 0.75 = Ok buf /\
    sine_rows (with_buffer (sine_graph sample_drawn) buf) = Ok rows /\
    sine_graph (match fst sample_replot with Ok g => g | _ => sample_graph end)
      = with_buffer (sine_graph sample_drawn) buf /\
    length rows = Z.to_nat 7 /\
    let bar := u "Accel: " ++ t ++ u " | " ++ str_repeat (u "#") len in
    let landing := get_landing_line ShoeAnimation_init true in
    one_liners (bar :: shoe :: landing :: rows) /\
    concat (w_out (snd sample_replot)) =
      concat (w_out (snd sample_plot))
      ++ (if first_render sample_drawn then [] else cursor_up (4 + 7))
      ++ concat (map line (bar :: shoe :: landing :: [] :: rows)).
Proof.
  apply (plot_emits_fixed_number_of_lines 30
           (Float (Y_BASELINE - AMPLITUDE), Float (Y_BASELINE + AMPLITUDE))
           40 7 (Int (-1), Int 1) sample_graph sample_drawn 11.5 0.75 true
           (snd sample_plot)
           (match fst sample_replot with Ok g => g | _ => sample_graph end)
           (snd sample_replot)).
  - by vm_compute.
  - apply (drawn_next sample_graph sample_graph 9.8 0 false (mkWorld [] [] None)
             sample_drawn (snd sample_plot)); [constructor | by vm_compute].
  - by vm_compute.
Defined.

(** ** The channel over a whole run *)

(** The channel is not closed, or the last thing done on it is a complete
    cleanup. *)
Definition closes_last {A} (m : M A) : Prop :=
  forall w, exists pre evs,
    w_chan (snd (m w)) = w_chan w ++ pre ++ evs
    /\ Forall not_close pre
    /\ (evs = [] \/ cleanup_trace evs).

Lemma closes_last_emits {A} (m : M A) : emits not_close m -> closes_last m.
Proof.
  intros H w. destruct (H w) as (pre & E & HP).
  exists pre, []. rewrite app_nil_r. auto.
Qed.

Lemma closes_last_bind {A B} (m : M A) (k : A -> M B) :
  emits not_close m -> (forall a, closes_last (k a)) -> closes_last (bind m k).
Proof.
  intros Hm Hk w. unfold bind. destruct (Hm w) as (evs0 & E0 & H0).
  destruct (m w) as [[a|e|] w1]; cbn [snd] in *.
  - destruct (Hk a w1) as (pre & evs & E & HP & Hevs).
    exists (evs0 ++ pre), evs. rewrite E, E0, <- !app_assoc.
    split; [done|]. split; [by apply Forall_app | done].
  - exists evs0, []. rewrite app_nil_r. auto.
  - exists evs0, []. rewrite app_nil_r. auto.
Qed.

Section WholeRun.
Variable env : nat -> reply.
Variable exn_text : exn -> str.
Variable libm_sin : float -> float.

Lemma emits_connect_to_emulator host port token :
  emits not_close (connect_to_emulator env exn_text host port token).
Proof.
  unfold connect_to_emulator, Telnet_open, Telnet_read_until, Telnet_write.
  repeat emits_step; done.
Qed.

Lemma cleanup_events emulator w :
  exists pre evs,
    w_chan (snd (cleanup env exn_text emulator w)) = w_chan w ++ pre ++ evs
    /\ Forall not_close pre
    /\ (evs = [] \/ cleanup_trace evs).
Proof.
  destruct (cleanup_spec env exn_text emulator w) as [H | (_ & evs & E & H)];
    [|exists [], evs; auto].
  unfold cleanup, bind in *.
  unfold print at 1, print_end at 1 in H. unfold print at 1, print_end at 1.
  cbv beta iota in *.
  match goal with |- context [set_sensor_data _ _ _ _ _ _ _ ?wx] =>
    set (w0 := wx) in * end.
  destruct (emits_set_sensor_data env exn_text emulator (u "acceleration")
              (Int 0) (Float 9.8) (Int 0) w0) as (evs0 & E0 & H0).
  destruct (set_sensor_data _ _ _ _ _ _ _ w0) as [[[]|e|] w1];
    cbn [fst snd] in *; [done| |];
    exists evs0, []; rewrite app_nil_r; auto.
Qed.

Lemma run_simulation_closes_last fuel emulator bar_width sine_width sine_height :
  closes_last (run_simulation env exn_text libm_sin fuel emulator
                 bar_width sine_width sine_height).
Proof.
  intros w. unfold run_simulation.
  destruct (DualGraph_init _ _ _ _ _) as [g| |];
    [|exists [], []; by rewrite !app_nil_r; auto..].
  erewrite bind_Ok by reflexivity.
  do 4 (erewrite bind_Ok by reflexivity).
  match goal with |- context [try_finally ?body _ ?wx] =>
    set (loop := body); set (w1 := wx) end.
  change (try_finally loop _ w1)
    with (try_finally loop (cleanup env exn_text emulator) w1).
  assert (Hw1 : w_chan w1 = w_chan w) by reflexivity.
  assert (Hloop : emits not_close loop).
  { subst loop. apply emits_try_except_KeyboardInterrupt;
      [apply emits_while_True | apply emits_print]. }
  destruct (Hloop w1) as (pre & Hpre & HP). rewrite Hw1 in Hpre.
  unfold try_finally.
  destruct (loop w1) as [rb wb]. cbn [snd] in Hpre.
  destruct (cleanup_events emulator wb) as (pre' & evs & E & HP' & Hevs).
  assert (exists pre evs, w_chan (snd (cleanup env exn_text emulator wb))
                          = w_chan w ++ pre ++ evs
                          /\ Forall not_close pre
                          /\ (evs = [] \/ cleanup_trace evs)) as Hc.
  { exists (pre ++ pre'), evs. rewrite E, Hpre, <- !app_assoc.
    split; [done|]. split; [by apply Forall_app | done]. }
  destruct (cleanup env exn_text emulator wb) as [rc wc]. cbn [snd] in Hc.
  destruct rb; [destruct rc; exact Hc | destruct rc; exact Hc |].
  exists pre, []. cbn [snd]. rewrite app_nil_r. auto.
Qed.

(** X10. In every run of the program the channel is closed at most once, and
    only by a complete cleanup: whatever the arguments, the token file, the
    console's replies and the user's interruptions, the operations on the
    channel are some that do not close it, followed by nothing or by the
    reset command [sensor set acceleration 0.00:9.80:0.00], the read of its
    acknowledgement unless the write failed, and the close.  Nothing is done
    on the channel after the close. *)
Theorem main_closes_channel_last fuel a token_file w :
  exists pre evs,
    w_chan (snd (main env exn_text libm_sin fuel a token_file w))
      = w_chan w ++ pre ++ evs
    /\ Forall not_close pre
    /\ (evs = [] \/ cleanup_trace evs).
Proof.
  revert w. change (closes_last (main env exn_text libm_sin fuel a token_file)).
  unfold main.
  apply closes_last_bind; [apply emits_lift | intros [[bw sw] sh]].
  apply closes_last_bind.
  { destruct (falsy (arg_token a)); [|apply emits_ret].
    destruct token_file; (apply emits_bind; [apply emits_print | intros _]);
      apply emits_ret. }
  intros token.
  apply closes_last_bind; [apply emits_connect_to_emulator | intros [emulator|]].
  - apply run_simulation_closes_last.
  - apply closes_last_emits, emits_ret.
Qed.

End WholeRun.

(** ** A graph without width *)




Section NoWidth.
Variable env : nat -> reply.
Variable exn_text : exn -> str.
Variable libm_sin : float -> float.


End NoWidth.


(** ** When the landing message is shown *)

Definition LANDED : str := u "🦶 STEP LANDED! 🦶".

(** The landing message was printed between two states of the world. *)
Definition landing_shown (w w' : world) : Prop :=
  LANDED ++ [NL] ∈ drop (length (w_out w)) (w_out w').

(** A printed piece that does not begin with the foot of the landing
    message. *)
Definition other (s : str) : Prop := head s <> Some 129462%N.

Lemma other_not_landed (s : str) : other s -> s <> LANDED ++ [NL].
Proof. intros H ->. by apply H. Qed.

(** A string that begins with a printable ASCII character. *)
Definition starts_plain (s : str) : Prop :=
  exists c rest, s = c :: rest /\ printable c = true.

Lemma starts_plain_other (s t : str) : starts_plain s -> other (s ++ t).
Proof.
  intros (c & rest & -> & Hc) [= ->]. done.
Qed.

Lemma starts_plain_app (s t : str) : starts_plain s -> starts_plain (s ++ t).
Proof. intros (c & rest & -> & Hc). by exists c, (rest ++ t). Qed.

Lemma is_text_starts_plain (s : str) :
  is_text s = true -> s <> [] -> starts_plain s.
Proof.
  destruct s as [|c s]; [done|]. intros H _. exists c, s.
  rewrite is_text_cons in H. by apply andb_true_iff in H as [H _].
Qed.

Lemma starts_plain_row_label min_val max_val height i label :
  row_label min_val max_val height i = Ok label -> starts_plain label.
Proof.
  unfold row_label.
  destruct (num_sub max_val min_val) as [span| |]; [|done..]. cbn [rbind].
  destruct (num_mul _ span) as [scaled| |]; [|done..]. cbn [rbind].
  destruct (num_truediv scaled _) as [offset| |]; [|done..]. cbn [rbind].
  destruct (num_sub max_val offset) as [row_value| |]; [|done..]. cbn [rbind].
  destruct (num_lt _ _).
  - intros [= <-]. by eexists _, _.
  - destruct (format_5_2f row_value) as [t| |] eqn:E; [|done..]. cbn [rbind].
    intros [= <-]. apply is_text_starts_plain.
    + rewrite is_text_app, (is_text_format_5_2f_num _ _ E). by vm_compute.
    + by destruct t.
Qed.

Lemma list_set_nat {A} (l l' : list A) (i : Z) (v : A) :
  0 <= i -> list_set l i v = Ok l' -> l' = <[Z.to_nat i := v]> l.
Proof.
  intros Hi. unfold list_set, list_index.
  destruct (Z.leb_spec 0 i); [|lia]. cbn [andb].
  destruct (i <? _); cbn [rbind]; [by intros [= <-]|].
  destruct (Z.ltb_spec i 0); [lia|]. rewrite andb_false_r. done.
Qed.

Lemma starts_plain_insert (s : str) (k : nat) (c : N) :
  (0 < k)%nat -> starts_plain s -> starts_plain (<[k := c]> s).
Proof.
  intros Hk (c0 & rest & -> & Hc). destruct k as [|k]; [lia|].
  by exists c0, (<[k := c]> rest).
Qed.

Lemma plot_point_starts g n i value rows rows' :
  0 <= i -> Forall starts_plain (row_labels g) ->
  plot_point g n i value rows = Ok rows' -> Forall starts_plain rows ->
  Forall starts_plain rows'.
Proof.
  unfold plot_point. intros Hi Hlabels H Hrows.
  destruct (_value_to_row g value) as [t| |]; [|done..]. cbn [rbind] in H.
  destruct (py_round t) as [row_idx| |]; [|done..]. cbn [rbind] in H.
  destruct (_ && _); [|by injection H as <-].
  destruct (list_get (row_labels g) 0) as [label0| |] eqn:E0; [|done..].
  cbn [rbind] in H.
  destruct (list_get rows row_idx) as [row| |] eqn:Erow; [|done..].
  cbn [rbind] in H.
  destruct (_ <? _); [|by injection H as <-].
  destruct (list_set row _ _) as [row_list| |] eqn:Eset; [|done..].
  cbn [rbind] in H.
  apply list_get_inv in Erow, E0.
  rewrite Forall_forall in Hlabels. destruct (Hlabels _ E0) as (c & rest & -> & _).
  apply list_set_nat in Eset; [|lia]. cbn [length] in Eset.
  apply (list_set_inv starts_plain) in H as [H _]; [done..|].
  subst row_list. apply starts_plain_insert; [lia|].
  rewrite Forall_forall in Hrows. by apply Hrows.
Qed.

Lemma plot_points_starts g n values : forall i rows rows',
  0 <= i -> Forall starts_plain (row_labels g) ->
  plot_points g n i values rows = Ok rows' -> Forall starts_plain rows ->
  Forall starts_plain rows'.
Proof.
  induction values as [|v values IH]; simpl; intros i rows rows' Hi Hlabels.
  - by intros [= <-].
  - destruct (plot_point g n i v rows) as [rows1| |] eqn:E; [|done..].
    cbn [rbind]. intros H Hrows.
    apply (IH (i + 1) rows1); [lia|done..|].
    by apply (plot_point_starts g n i v rows).
Qed.

Lemma sine_rows_starts g rows :
  Forall starts_plain (row_labels g) -> sine_rows g = Ok rows ->
  Forall starts_plain rows.
Proof.
  unfold sine_rows. intros Hlabels H.
  set (rows0 := map _ (row_labels g)) in H.
  assert (Forall starts_plain rows0) as H0.
  { unfold rows0. apply Forall_fmap. eapply Forall_impl; [exact Hlabels|].
    intros s Hs. by apply starts_plain_app. }
  destruct (if has_data (sine_buffer g) then _ else _) as [rows1| |] eqn:E1;
    [|done..]. cbn [rbind] in H.
  assert (Forall starts_plain rows1) as H1.
  { destruct (has_data (sine_buffer g)).
    - by apply (plot_points_starts _ _ _ _ _ _ (Z.le_refl 0) Hlabels E1).
    - by injection E1 as <-. }
  destruct (get_current_value (sine_buffer g)) as [[v|]| |]; [| |done..];
    cbn [rbind] in H; [|by injection H as <-].
  destruct (_value_to_row g v) as [t| |]; [|done..]. cbn [rbind] in H.
  destruct (py_round t) as [current_row| |]; [|done..]. cbn [rbind] in H.
  destruct (_ && _); [|by injection H as <-].
  destruct (list_get rows1 current_row) as [row| |] eqn:Erow; [|done..].
  cbn [rbind] in H.
  destruct (format_plus_2f (Float v)) as [t'| |] eqn:Et; [|done..].
  cbn [rbind] in H.
  apply list_get_inv in Erow.
  apply (list_set_inv starts_plain) in H as [H2 _]; [done..|].
  apply starts_plain_app. rewrite Forall_forall in H1. by apply H1.
Qed.

(** What a computation prints: pieces that all satisfy [P]. *)
Definition prints {A} (P : str -> Prop) (m : M A) : Prop :=
  forall w, exists items,
    w_out (snd (m w)) = w_out w ++ items /\ Forall P items.

Lemma prints_silent {A} P (m : M A) :
  (forall w, w_out (snd (m w)) = w_out w) -> prints P m.
Proof. intros H w. exists []. by rewrite H, app_nil_r. Qed.

Lemma prints_print P (s : str) : P (s ++ [NL]) -> prints P (print s).
Proof. intros H w. exists [s ++ [NL]]. split; [done|]. by constructor. Qed.

Lemma prints_bind {A B} P (m : M A) (k : A -> M B) :
  prints P m -> (forall a, prints P (k a)) -> prints P (bind m k).
Proof.
  intros Hm Hk w. unfold bind.
  destruct (Hm w) as (items & E & HP).
  destruct (m w) as [[a|e|] w1]; simpl in *; [|eauto..].
  destruct (Hk a w1) as (items' & E' & HP').
  exists (items ++ items'). rewrite E', E, app_assoc.
  split; [done|]. by apply Forall_app.
Qed.

Lemma prints_try_except_Exception {A} P (body : M A) (handler : exn -> M A) :
  prints P body -> (forall e, prints P (handler e)) ->
  prints P (try_except_Exception body handler).
Proof.
  intros Hm Hk w. unfold try_except_Exception.
  destruct (Hm w) as (items & E & HP).
  destruct (body w) as [[a|e|] w1]; simpl in *; [eauto| |eauto].
  destruct (is_Exception e); simpl; [|eauto].
  destruct (Hk e w1) as (items' & E' & HP').
  exists (items ++ items'). rewrite E', E, app_assoc.
  split; [done|]. by apply Forall_app.
Qed.

Lemma prints_interruptible P : prints P interruptible.
Proof.
  apply prints_silent. intros w. unfold interruptible.
  by destruct (w_intr w) as [[|k]|].
Qed.

Lemma prints_channel_op P (env : nat -> reply) (ev : chan_event) :
  prints P (channel_op env ev).
Proof.
  apply prints_silent. intros w. unfold channel_op, bind, interruptible.
  destruct (w_intr w) as [[|k]|]; simpl; [done|by destruct (env _)..].
Qed.

Lemma prints_set_sensor_data env exn_text emulator sensor x y z :
  prints other (set_sensor_data env exn_text emulator sensor x y z).
Proof.
  unfold set_sensor_data, Telnet_write, Telnet_read_until.
  apply prints_try_except_Exception.
  - apply prints_bind; [by apply prints_silent | intros command].
    apply prints_bind; [by apply prints_silent | intros data].
    apply prints_bind.
    { apply prints_bind; [apply prints_channel_op | intros _].
      by apply prints_silent. }
    intros _. apply prints_bind; [apply prints_channel_op | intros _].
    by apply prints_silent.
  - intros e. apply prints_print. by vm_compute.
Qed.

Lemma landed_in_plot_prints first total bar shoe rows s d :
  get_shoe_state ShoeAnimation_init s d = Ok shoe ->
  Forall starts_plain rows ->
  LANDED ++ [NL]
    ∈ plot_prints first total (u "Accel: " ++ bar) shoe
        (get_landing_line ShoeAnimation_init d) rows
  <-> d = true.
Proof.
  intros Hshoe Hrows. split.
  - unfold plot_prints. rewrite !elem_of_app. intros [H | [H | H]].
    + destruct first; [by apply elem_of_nil in H|].
      apply list_elem_of_singleton in H. by vm_compute in H.
    + repeat (apply elem_of_cons in H as [H | H]);
        try (by vm_compute in H); try (by apply elem_of_nil in H).
      * rewrite get_shoe_state_table in Hshoe. injection Hshoe as <-.
        by repeat case_match; vm_compute in H.
      * by destruct d.
    + apply list_elem_of_In, in_flat_map in H as (row & Hrow & H).
      apply list_elem_of_In in Hrow, H.
      rewrite Forall_forall in Hrows. specialize (Hrows _ Hrow).
      repeat (apply elem_of_cons in H as [H | H]);
        try (by vm_compute in H); try (by apply elem_of_nil in H).
      symmetry in H.
      by destruct (other_not_landed (row ++ [NL]) (starts_plain_other _ _ Hrows)).
  - intros ->. unfold plot_prints. rewrite !elem_of_app. right; left.
    rewrite !elem_of_cons. do 5 right. left. reflexivity.
Qed.

Lemma DualGraph_init_labels bw br sw sh sr g :
  DualGraph_init bw br sw sh sr = Ok g ->
  shoe_animation g = ShoeAnimation_init
  /\ Forall starts_plain (row_labels (sine_graph g)).
Proof.
  unfold DualGraph_init, SineWaveGraph_init. destruct sr as [min_val max_val].
  destruct (for_append _ _) as [labels| |] eqn:E; [|done..]. cbn [rbind].
  intros [= <-]. cbn. split; [done|].
  apply (for_append_inv _ starts_plain) in E as [H _]; [done|].
  intros i label. apply starts_plain_row_label.
Qed.

Lemma drawn_labels g0 g :
  drawn g0 g ->
  shoe_animation g = shoe_animation g0
  /\ row_labels (sine_graph g) = row_labels (sine_graph g0).
Proof.
  induction 1 as [|g a s d w g' w' _ [IH1 IH2] Hplot]; [done|].
  apply plot_items in Hplot as (? & ? & ? & ? & ? & _ & _ & _ & _ & _ & -> & _).
  done.
Qed.

Lemma interruptible_out (w : world) : w_out (snd (interruptible w)) = w_out w.
Proof. unfold interruptible. by destruct (w_intr w) as [[|k]|]. Qed.

Section Landing.
Variable env : nat -> reply.
Variable exn_text : exn -> str.
Variable libm_sin : float -> float.

Lemma landing_shown_iff emulator frequency g0 st w st' w' :
  shoe_animation g0 = ShoeAnimation_init ->
  Forall starts_plain (row_labels (sine_graph g0)) ->
  drawn g0 (dual_graph st) ->
  loop_body env exn_text libm_sin emulator frequency st w = (Ok st', w') ->
  (landing_shown w w' <-> was_rising st = true /\ was_rising st' = false)
  /\ drawn g0 (dual_graph st').
Proof.
  intros Hshoe Hlabels Hdrawn. unfold loop_body, sleep.
  destruct (drawn_labels _ _ Hdrawn) as [Eshoe Elabels].
  rewrite Hshoe in Eshoe. rewrite <- Elabels in Hlabels.
  intros ([[x y] z] & w1 & [Hgen ->]%lift_inv_Ok & H)%bind_inv_Ok.
  apply bind_inv_Ok in H as ([] & w2 & Hset & H).
  apply bind_inv_Ok in H as (s & w3 & [_ ->]%lift_inv_Ok & H).
  apply bind_inv_Ok in H as ([] & w4 & Hint & H).
  apply bind_inv_Ok in H as (g' & w5 & Hplot & H).
  apply bind_inv_Ok in H as ([] & w6 & Hsleep & H).
  injection H as <- <-. cbn [was_rising dual_graph].
  split; [|by eapply drawn_next].
  destruct (prints_set_sensor_data env exn_text emulator (u "acceleration")
              (Float x) (Float y) (Float z) w) as (items & Eitems & Hitems).
  rewrite Hset in Eitems. cbn [snd] in Eitems.
  assert (w_out w4 = w_out w2) as E4.
  { pose proof (interruptible_out w2) as E. by rewrite Hint in E. }
  assert (w_out w6 = w_out w5) as E6.
  { pose proof (interruptible_out w5) as E. by rewrite Hsleep in E. }
  apply plot_items in Hplot
    as (t & len & shoe & buf & rows & _ & _ & Hstate & _ & Hrows & _ & ->).
  cbn [w_out] in E6. rewrite Eshoe in *.
  apply sine_rows_starts in Hrows; [|done].
  unfold landing_shown. rewrite E6, E4, Eitems, <- app_assoc, drop_app_length.
  rewrite elem_of_app, (landed_in_plot_prints _ _ _ _ _ _ _ Hstate Hrows).
  split.
  - intros [H | H].
    + rewrite Forall_forall in Hitems.
      by destruct (other_not_landed _ (Hitems _ H)).
    + apply andb_true_iff in H as [H1 H2]. by apply negb_true_iff in H2.
  - intros [-> ->]. by right.
Qed.

(** X13. The landing message is printed in an iteration of the simulation
    loop exactly when the vertical acceleration had been rising at the
    previous iteration and does not rise at this one.  So it is never shown
    in two iterations in a row, whatever the values of the sine. *)
Theorem landing_message_follows_step_detection
    emulator frequency bw br sw sh sr g0 st w st' w' :
  DualGraph_init bw br sw sh sr = Ok g0 ->
  drawn g0 (dual_graph st) ->
  loop_body env exn_text libm_sin emulator frequency st w = (Ok st', w') ->
  (landing_shown w w' <-> was_rising st = true /\ was_rising st' = false)
  /\ forall st'' w'',
       loop_body env exn_text libm_sin emulator frequency st' w' = (Ok st'', w'') ->
       landing_shown w w' -> ~ landing_shown w' w''.
Proof.
  intros [Hshoe Hlabels]%DualGraph_init_labels Hdrawn Htick.
  destruct (landing_shown_iff _ _ _ _ _ _ _ Hshoe Hlabels Hdrawn Htick)
    as [Hiff Hdrawn'].
  split; [done|]. intros st'' w'' Htick' [_ H]%Hiff.
  destruct (landing_shown_iff _ _ _ _ _ _ _ Hshoe Hlabels Hdrawn' Htick')
    as [Hiff' _].
  intros [H' _]%Hiff'. congruence.
Qed.
End Landing.

Definition peak_state : loop_state := mkLoopState 0 20 true sample_graph.
Definition peak_tick : result loop_state * world :=
  loop_body sample_env (fun _ => u "error") (fun x => x) TelnetHandle 1.25
    peak_state (mkWorld [] [] None).
Definition after_peak : loop_state :=
  match fst peak_tick with Ok s => s | _ => peak_state end.

Lemma landing_message_follows_step_detection_witness :
  (landing_shown (mkWorld [] [] None) (snd peak_tick)
   <-> was_rising peak_state = true /\ was_rising after_peak = false)
  /\ forall st'' w'',
       loop_body sample_env (fun _ => u "error") (fun x => x) TelnetHandle 1.25
         after_peak (snd peak_tick) = (Ok st'', w'') ->
       landing_shown (mkWorld [] [] None) (snd peak_tick) ->
       ~ landing_shown (snd peak_tick) w''.
Proof.
  apply (landing_message_follows_step_detection sample_env (fun _ => u "error")
           (fun x => x) TelnetHandle 1.25 30
           (Float (Y_BASELINE - AMPLITUDE), Float (Y_BASELINE + AMPLITUDE))
           40 7 (Int (-1), Int 1) sample_graph peak_state (mkWorld [] [] None)
           after_peak (snd peak_tick)).
  - by vm_compute.
  - constructor.
  - by vm_compute.
Defined.

(** ** A sine height of 1, from the command line *)




(** ** Magnitudes of binary64 values *)

Lemma digits2_pos_bounds (m : positive) :
  2 ^ (Z.pos (digits2_pos m) - 1) <= Z.pos m < 2 ^ Z.pos (digits2_pos m).
Proof.
  induction m as [m IH|m IH|]; cbn [digits2_pos].
  - rewrite Pos2Z.inj_succ.
    replace (Z.succ (Z.pos (digits2_pos m)) - 1) with (Z.pos (digits2_pos m)) by lia.
    rewrite Z.pow_succ_r by lia.
    assert (2 ^ Z.pos (digits2_pos m) = 2 * 2 ^ (Z.pos (digits2_pos m) - 1)) as E
      by (rewrite <- Z.pow_succ_r by lia; f_equal; lia).
    lia.
  - rewrite Pos2Z.inj_succ.
    replace (Z.succ (Z.pos (digits2_pos m)) - 1) with (Z.pos (digits2_pos m)) by lia.
    rewrite Z.pow_succ_r by lia.
    assert (2 ^ Z.pos (digits2_pos m) = 2 * 2 ^ (Z.pos (digits2_pos m) - 1)) as E
      by (rewrite <- Z.pow_succ_r by lia; f_equal; lia).
    lia.
  - simpl. lia.
Qed.

Lemma Zdigits2_nonneg (m : Z) : 0 <= Zdigits2 m.
Proof. destruct m; simpl; lia. Qed.

Lemma Zdigits2_lt_pow (m : Z) : 0 <= m -> m < 2 ^ Zdigits2 m.
Proof.
  destruct m as [|p|p]; simpl; [lia| |lia]. intros _.
  apply digits2_pos_bounds.
Qed.

Lemma Zdigits2_le (m k : Z) : 0 <= m -> 0 <= k -> m < 2 ^ k -> Zdigits2 m <= k.
Proof.
  destruct m as [|p|p]; simpl; [lia| |lia]. intros _ Hk H.
  destruct (digits2_pos_bounds p) as [Hl _].
  destruct (Z_le_gt_dec (Z.pos (digits2_pos p)) k) as [|Hgt]; [done|].
  assert (2 ^ k <= 2 ^ (Z.pos (digits2_pos p) - 1)) by (apply Z.pow_le_mono_r; lia).
  lia.
Qed.

Lemma Zdigits2_succ (m : Z) : 0 <= m -> Zdigits2 (m + 1) <= Zdigits2 m + 1.
Proof.
  intros H. pose proof (Zdigits2_lt_pow m H). pose proof (Zdigits2_nonneg m).
  apply Zdigits2_le; [lia..|]. rewrite Z.pow_add_r by lia. lia.
Qed.

Lemma Zdigits2_mul (m n : Z) :
  0 <= m -> 0 <= n -> Zdigits2 (m * n) <= Zdigits2 m + Zdigits2 n.
Proof.
  intros Hm Hn. pose proof (Zdigits2_lt_pow m Hm). pose proof (Zdigits2_lt_pow n Hn).
  pose proof (Zdigits2_nonneg m). pose proof (Zdigits2_nonneg n).
  apply Zdigits2_le; [nia|lia|]. rewrite Z.pow_add_r by lia. nia.
Qed.

Lemma Zdigits2_div_pow (m n : Z) :
  0 <= m -> 0 <= n -> n <= Zdigits2 m -> Zdigits2 (m / 2 ^ n) <= Zdigits2 m - n.
Proof.
  intros Hm Hn Hd. pose proof (Zdigits2_lt_pow m Hm).
  assert (0 < 2 ^ n) by (apply Z.pow_pos_nonneg; lia).
  apply Zdigits2_le; [apply Z.div_pos; lia | lia |].
  apply Z.div_lt_upper_bound; [lia|]. rewrite <- Z.pow_add_r by lia.
  replace (n + (Zdigits2 m - n)) with (Zdigits2 m) by lia. done.
Qed.

Lemma div_pow_small (m n : Z) :
  0 <= m -> Zdigits2 m < n -> m / 2 ^ n = 0.
Proof.
  intros Hm Hn. pose proof (Zdigits2_lt_pow m Hm). pose proof (Zdigits2_nonneg m).
  apply Z.div_small. split; [done|].
  assert (2 ^ Zdigits2 m <= 2 ^ n) by (apply Z.pow_le_mono_r; lia). lia.
Qed.

Lemma fexp_le (x K : Z) : x <= K -> -1074 <= K -> fexp prec emax x <= K.
Proof. unfold fexp, emin, prec, emax. lia. Qed.

Lemma fexp_ge (x : Z) : x - 53 <= fexp prec emax x.
Proof. unfold fexp, emin, prec, emax. lia. Qed.

Lemma shr_m_of_loc (m : Z) (l : location) : shr_m (shr_record_of_loc m l) = m.
Proof. by destruct l as [|[]]. Qed.

Lemma shr_1_m (mrs : shr_record) :
  0 <= shr_m mrs -> shr_m (shr_1 mrs) = shr_m mrs / 2.
Proof.
  destruct mrs as [m r s]. cbn [shr_m]. intros H.
  destruct m as [|[p|p|]|p]; cbn [shr_1 shr_m]; try lia; try done.
  - change (Z.pos p~1) with (2 * Z.pos p + 1). rewrite Z.mul_comm, Z.div_add_l by lia.
    rewrite (Z.div_small 1 2) by lia. lia.
  - change (Z.pos p~0) with (2 * Z.pos p). by rewrite Z.mul_comm, Z.div_mul by lia.
Qed.

Lemma iter_pos_shr_m (p : positive) : forall mrs,
  0 <= shr_m mrs -> shr_m (SpecFloat.iter_pos shr_1 p mrs) = shr_m mrs / 2 ^ Z.pos p.
Proof.
  assert (Hnn : forall mrs, 0 <= shr_m mrs -> 0 <= shr_m (shr_1 mrs)).
  { intros mrs H. rewrite shr_1_m by done. apply Z.div_pos; lia. }
  induction p as [p IH|p IH|]; intros mrs H; cbn [SpecFloat.iter_pos].
  - assert (0 <= shr_m (SpecFloat.iter_pos shr_1 p (shr_1 mrs))) as H1.
    { rewrite IH by auto. apply Z.div_pos; [auto|]. apply Z.pow_pos_nonneg; lia. }
    rewrite IH, IH, shr_1_m by auto.
    rewrite !Z.div_div by (try apply Z.pow_pos_nonneg; lia).
    f_equal. change (Z.pos p~1) with (2 * Z.pos p + 1).
    replace (2 * Z.pos p + 1) with (1 + Z.pos p + Z.pos p) by lia.
    rewrite !Z.pow_add_r by lia. lia.
  - assert (0 <= shr_m (SpecFloat.iter_pos shr_1 p mrs)) as H1.
    { rewrite IH by auto. apply Z.div_pos; [auto|]. apply Z.pow_pos_nonneg; lia. }
    rewrite IH, IH by auto.
    rewrite !Z.div_div by (try apply Z.pow_pos_nonneg; lia).
    f_equal. change (Z.pos p~0) with (2 * Z.pos p).
    replace (2 * Z.pos p) with (Z.pos p + Z.pos p) by lia.
    rewrite !Z.pow_add_r by lia. lia.
  - rewrite shr_1_m by done. done.
Qed.

(** The magnitude invariant of a mantissa and exponent on their way through
    the rounding: the value is below [2 ^ K]. *)
Definition below (K m e : Z) : Prop :=
  0 <= m /\ e <= K /\ (m = 0 \/ Zdigits2 m + e <= K).

Lemma shr_fexp_below (K m e : Z) (l : location) :
  -1074 <= K -> below K m e ->
  below K (shr_m (fst (shr_fexp prec emax m e l))) (snd (shr_fexp prec emax m e l)).
Proof.
  intros HK (Hm & He & Hd). unfold shr_fexp, shr.
  pose proof (Zdigits2_nonneg m) as Hnn.
  destruct (fexp prec emax (Zdigits2 m + e) - e) as [|n|n] eqn:En;
    cbn [fst snd]; rewrite ?shr_m_of_loc; [done| |done].
  rewrite iter_pos_shr_m by (by rewrite shr_m_of_loc). rewrite shr_m_of_loc.
  assert (e + Z.pos n = fexp prec emax (Zdigits2 m + e)) as -> by lia.
  split; [apply Z.div_pos; [done|apply Z.pow_pos_nonneg; lia]|].
  split.
  { destruct Hd as [-> | Hd]; apply fexp_le; simpl; lia. }
  destruct (Z_le_gt_dec (Z.pos n) (Zdigits2 m)) as [Hle|Hgt].
  - right. pose proof (Zdigits2_div_pow m (Z.pos n) Hm ltac:(lia) Hle).
    destruct Hd as [-> | Hd]; [simpl in Hle; lia|]. lia.
  - left. apply div_pow_small; [done|lia].
Qed.

Lemma round_nearest_even_below (K m e : Z) (l : location) :
  below K m e -> below (K + 1) (round_nearest_even m l) e.
Proof.
  intros (Hm & He & Hd).
  assert (m <= round_nearest_even m l <= m + 1) as Hr.
  { destruct l as [|[]]; cbn [round_nearest_even]; try lia.
    destruct (Z.even m); lia. }
  split; [lia|]. split; [lia|]. right.
  assert (Zdigits2 (round_nearest_even m l) <= Zdigits2 m + 1) as Hdig.
  { pose proof (Zdigits2_succ m Hm).
    destruct (Z.eq_dec (round_nearest_even m l) m) as [-> | Hne]; [lia|].
    replace (round_nearest_even m l) with (m + 1) by lia. done. }
  destruct Hd as [-> | Hd]; [simpl in Hdig|]; lia.
Qed.

(** Magnitude of a value of the specification: zero, or finite and below
    [2 ^ K]. *)
Definition small (K : Z) (x : spec_float) : Prop :=
  match x with
  | S754_zero _ => True
  | S754_finite _ m e => Z.pos (digits2_pos m) + e <= K
  | _ => False
  end.


Lemma binary_round_aux_small (K : Z) (s : bool) (m e : Z) (l : location) :
  -1074 <= K <= 970 -> below K m e ->
  small (K + 1) (binary_round_aux prec emax s m e l).
Proof.
  intros HK H. unfold binary_round_aux.
  pose proof (shr_fexp_below K m e l ltac:(lia) H) as H1.
  destruct (shr_fexp prec emax m e l) as [mrs1 e1]. cbn [fst snd] in H1.
  pose proof (round_nearest_even_below K _ _ (loc_of_shr_record mrs1) H1) as H2.
  pose proof (shr_fexp_below (K + 1) _ _ loc_Exact ltac:(lia) H2) as H3.
  destruct (shr_fexp prec emax _ e1 loc_Exact) as [mrs2 e2]. cbn [fst snd] in H3.
  destruct H3 as (Hm & He & Hd).
  destruct (shr_m mrs2) as [|p|p]; [done| |lia].
  destruct (Z.leb_spec e2 (emax - prec)) as [_|Hgt];
    [|unfold emax, prec in Hgt; lia].
  cbn [small]. destruct Hd as [|Hd]; [done|]. exact Hd.
Qed.

Lemma small_below (K : Z) (m : positive) (e : Z) :
  Z.pos (digits2_pos m) + e <= K -> below K (Z.pos m) e.
Proof. intros H. split; [lia|]. split; [lia|]. right. exact H. Qed.

Lemma SFmul_small (K J : Z) (x y : spec_float) :
  small K x -> small J y -> -1074 <= K + J <= 970 ->
  small (K + J + 1) (SFmul prec emax x y).
Proof.
  destruct x as [sx|sx| |sx mx ex], y as [sy|sy| |sy my ey]; cbn [small SFmul];
    try done.
  intros Hx Hy HK. apply binary_round_aux_small; [done|].
  pose proof (Zdigits2_mul (Z.pos mx) (Z.pos my) ltac:(lia) ltac:(lia)) as Hd.
  change (Z.pos mx * Z.pos my) with (Z.pos (mx * my)) in Hd. cbn [Zdigits2] in Hd.
  apply small_below. lia.
Qed.

Lemma iter_xO (m d : positive) : Z.pos (Pos.iter xO m d) = Z.pos m * 2 ^ Z.pos d.
Proof.
  induction d as [|d IH] using Pos.peano_ind.
  - simpl. lia.
  - rewrite Pos.iter_succ, Pos2Z.inj_succ, Z.pow_succ_r by lia.
    change (Z.pos (Pos.iter xO m d)~0) with (2 * Z.pos (Pos.iter xO m d)).
    rewrite IH. lia.
Qed.

Lemma shl_align_spec (m : positive) (e e' : Z) :
  let '(m', e'') := shl_align m e e' in
  e'' = Z.min e e' /\ Z.pos m' = Z.pos m * 2 ^ (e - e'').
Proof.
  unfold shl_align. destruct (e' - e) as [|d|d] eqn:E.
  - split; [lia|]. rewrite Z.sub_diag. simpl. lia.
  - split; [lia|]. rewrite Z.sub_diag. simpl. lia.
  - split; [lia|]. rewrite iter_xO. f_equal. f_equal. lia.
Qed.

Lemma shift_below (K m e e' : Z) :
  e' <= e -> below K m e -> below K (m * 2 ^ (e - e')) e'.
Proof.
  intros He (Hm & HeK & Hd).
  assert (0 < 2 ^ (e - e')) by (apply Z.pow_pos_nonneg; lia).
  split; [nia|]. split; [lia|].
  destruct Hd as [-> | Hd]; [by left|]. right.
  pose proof (Zdigits2_lt_pow m Hm). pose proof (Zdigits2_nonneg m).
  assert (Zdigits2 (m * 2 ^ (e - e')) <= Zdigits2 m + (e - e')); [|lia].
  apply Zdigits2_le; [nia|lia|]. rewrite Z.pow_add_r by lia. nia.
Qed.

Lemma binary_round_small (K : Z) (s : bool) (m : positive) (e : Z) :
  -1074 <= K <= 970 -> below K (Z.pos m) e ->
  small (K + 1) (binary_round prec emax s m e).
Proof.
  intros HK H. unfold binary_round.
  pose proof (shl_align_spec m e (fexp prec emax (Z.pos (digits2_pos m) + e))) as Hs.
  destruct (shl_align _ _ _) as [mz ez]. destruct Hs as [Hez Hmz].
  apply binary_round_aux_small; [done|]. rewrite Hmz.
  apply shift_below; [lia | done].
Qed.

Lemma binary_normalize_small (K m e : Z) :
  -1074 <= K <= 970 -> below K (Z.abs m) e ->
  small (K + 1) (binary_normalize prec emax m e false).
Proof.
  intros HK H. destruct m as [|p|p]; cbn [binary_normalize]; [done|..];
    by apply binary_round_small.
Qed.

Lemma below_add (K a b e : Z) :
  below K a e -> below K b e -> forall c, Z.abs c <= a + b -> below (K + 1) (Z.abs c) e.
Proof.
  intros (Ha & He & Hda) (Hb & _ & Hdb) c Hc.
  split; [lia|]. split; [lia|]. right.
  assert (a < 2 ^ (K - e) /\ b < 2 ^ (K - e)) as [Hla Hlb].
  { assert (0 < 2 ^ (K - e)) by (apply Z.pow_pos_nonneg; lia).
    split.
    - destruct Hda as [-> | Hda]; [done|].
      pose proof (Zdigits2_lt_pow a Ha). pose proof (Zdigits2_nonneg a).
      assert (2 ^ Zdigits2 a <= 2 ^ (K - e)) by (apply Z.pow_le_mono_r; lia). lia.
    - destruct Hdb as [-> | Hdb]; [done|].
      pose proof (Zdigits2_lt_pow b Hb). pose proof (Zdigits2_nonneg b).
      assert (2 ^ Zdigits2 b <= 2 ^ (K - e)) by (apply Z.pow_le_mono_r; lia). lia. }
  assert (Zdigits2 (Z.abs c) <= K - e + 1); [|lia].
  apply Zdigits2_le; [lia..|]. rewrite Z.pow_add_r by lia. lia.
Qed.

Lemma aligned_below (K : Z) (m : positive) (e ez : Z) :
  ez <= e -> Z.pos (digits2_pos m) + e <= K ->
  below K (Z.pos (fst (shl_align m e ez))) ez.
Proof.
  intros He H. pose proof (shl_align_spec m e ez) as Hs.
  destruct (shl_align m e ez) as [m' e']. cbn [fst]. destruct Hs as [-> ->].
  rewrite Z.min_r by lia. apply shift_below; [done|]. by apply small_below.
Qed.

Lemma SFadd_small (K : Z) (x y : spec_float) :
  small K x -> small K y -> -1074 <= K <= 969 ->
  small (K + 2) (SFadd prec emax x y).
Proof.
  destruct x as [sx|sx| |sx mx ex], y as [sy|sy| |sy my ey]; cbn [small SFadd];
    try done.
  - intros _ _ _. by destruct sx, sy.
  - intros _ H _. lia.
  - intros H _ _. lia.
  - intros Hx Hy HK.
    pose proof (aligned_below K mx ex (Z.min ex ey) ltac:(lia) Hx) as Ha.
    pose proof (aligned_below K my ey (Z.min ex ey) ltac:(lia) Hy) as Hb.
    replace (K + 2) with (K + 1 + 1) by lia.
    apply binary_normalize_small; [lia|].
    apply (below_add K _ _ _ Ha Hb).
    generalize (fst (shl_align mx ex (Z.min ex ey))), (fst (shl_align my ey (Z.min ex ey))).
    intros a b. destruct sx, sy; cbn [cond_Zopp]; lia.
Qed.





(** ** Magnitudes of floats *)

Definition fsmall (K : Z) (f : float) : Prop := small K (Prim2SF f).


Lemma fsmall_mul (K J : Z) (x y : float) :
  fsmall K x -> fsmall J y -> -1074 <= K + J <= 970 ->
  fsmall (K + J + 1) (x * y)%float.
Proof. unfold fsmall. rewrite mul_spec. apply SFmul_small. Qed.

Lemma fsmall_add (K : Z) (x y : float) :
  fsmall K x -> fsmall K y -> -1074 <= K <= 969 -> fsmall (K + 2) (x + y)%float.
Proof. unfold fsmall. rewrite add_spec. apply SFadd_small. Qed.






Lemma binary_normalize_valid (z : Z) :
  0 <= z < 2 ^ 63 -> valid_binary (binary_normalize prec emax z 0 false) = true.
Proof.
  intros Hz.
  assert (Uint63.to_Z (Uint63.of_Z z) = z) as E.
  { rewrite Uint63.of_Z_spec. apply Z.mod_small. exact Hz. }
  rewrite <- E, <- of_uint63_spec. apply Prim2SF_valid.
Qed.

(** [float(z)] for an int below [2 ^ 63]. *)
Lemma float_of_int_small63 (z : Z) :
  0 <= z < 2 ^ 63 -> exists f, float_of_int z = Ok f /\ fsmall 64 f.
Proof.
  intros Hz. unfold float_of_int.
  destruct (Z.leb_spec FLOAT_LIMIT (Z.abs z)) as [H|_].
  { assert (2 ^ 63 < FLOAT_LIMIT) by reflexivity. lia. }
  eexists. split; [reflexivity|]. unfold fsmall.
  rewrite Prim2SF_SF2Prim by (by apply binary_normalize_valid).
  apply (binary_normalize_small 63); [lia|].
  split; [lia|]. split; [lia|]. right.
  assert (Zdigits2 (Z.abs z) <= 63); [|lia].
  apply Zdigits2_le; lia.
Qed.



Definition BAR_RANGE : num * num :=
  (Float (Y_BASELINE - AMPLITUDE), Float (Y_BASELINE + AMPLITUDE)).






(** ** A call of [plot] that cannot fail *)














(** ** A simulation loop that only the user ends *)

Lemma fsmall_not_infinity (K : Z) (x : float) :
  fsmall K x -> PrimFloat.is_infinity x = false.
Proof.
  unfold fsmall, PrimFloat.is_infinity. rewrite FloatAxioms.eqb_spec, abs_spec.
  change (Prim2SF infinity) with (S754_infinity false).
  by destruct (Prim2SF x).
Qed.


Section OnlyTheUser.
Variable env : nat -> reply.
Variable exn_text : exn -> str.
Variable libm_sin : float -> float.
Variables bw sw sh : Z.
Hypothesis Hbw : 0 <= bw < 2 ^ 63.
Hypothesis Hsw : 1 <= sw.
Hypothesis Hsh : 2 <= sh <= 2 ^ 63.




End OnlyTheUser.


(** ** The generator on every tick index *)

(** X16. For every tick index from 0 up to 2^63 the generator returns
    [(0.0, 9.8 + 2.0 * sin(1.25 * float(step)), 0.0)], with the product and
    the sum rounded as floats; the same index gives the same triple.  It
    is not total on the ints: from [2^1024 - 2^970] on, in absolute value,
    the index cannot be converted to a float and [OverflowError] is
    raised. *)
Theorem generate_walking_acceleration_returns libm_sin :
  (forall step, 0 <= step < 2 ^ 63 ->
     exists f, float_of_int step = Ok f
       /\ generate_walking_acceleration libm_sin step
          = Ok (0, Y_BASELINE + AMPLITUDE * libm_sin (1.25 * f), 0)%float)
  /\ (forall step, FLOAT_LIMIT <= Z.abs step ->
        generate_walking_acceleration libm_sin step = Raise OverflowError).
Proof.
  split; intros step Hstep; unfold generate_walking_acceleration;
    cbn [num_mul to_float rbind].
  - destruct (float_of_int_small63 step Hstep) as (f & Ef & Sf).
    exists f. split; [done|]. rewrite Ef. cbn [rbind to_float]. unfold math_sin.
    rewrite (fsmall_not_infinity 66); [done|].
    by apply (fsmall_mul 1 64); [by vm_compute| |lia].
  - unfold float_of_int. destruct (Z.leb_spec FLOAT_LIMIT (Z.abs step)); [done|lia].
Qed.

Lemma generate_walking_acceleration_returns_witness :
  exists f, float_of_int 7 = Ok f
    /\ generate_walking_acceleration (fun x => (x / 16)%float) 7
       = Ok (0, Y_BASELINE + AMPLITUDE * ((1.25 * f) / 16), 0)%float.
Proof.
  apply (proj1 (generate_walking_acceleration_returns (fun x => (x / 16)%float)) 7).
  lia.
Defined.

(** ** The bar graph on its own *)

(** [BarGraph.plot], on a float. *)
Definition BarGraph_plot (self : BarGraph) (value : float) : M unit :=
  (run len <- lift (bar_length self value) ;
   let bar := str_repeat (u "#") len in
   run t <- lift (format_5_2f (Float value)) ;
   print (bar_label self ++ u ": " ++ t ++ u " | " ++ bar))%M.

Lemma drawn_bar g0 g : drawn g0 g -> bar_graph g = bar_graph g0.
Proof.
  induction 1 as [|g a s d w g' w' _ IH Hplot]; [done|].
  apply plot_items in Hplot as (? & ? & ? & ? & ? & _ & _ & _ & _ & _ & -> & _).
  done.
Qed.

(** X17. The bar that [DualGraph.plot] draws is the line that [BarGraph.plot]
    of its bar graph prints for the same value: the code of the one repeats
    the code of the other with the label [Accel], which is the label that
    [DualGraph] gives its bar graph.  In the output of [plot] it comes
    first, after the cursor movement if there is one and the clearing of
    the line. *)
Theorem dual_graph_draws_the_bar_of_its_bar_graph
    bw br sw sh sr g0 g a s d w g' w' :
  DualGraph_init bw br sw sh sr = Ok g0 ->
  drawn g0 g ->
  plot g a s d w = (Ok g', w') ->
  exists bar rest,
    (forall w0, BarGraph_plot (bar_graph g) a w0
                = (Ok tt, mkWorld (w_out w0 ++ [bar]) (w_chan w0) (w_intr w0)))
    /\ w_out w' = w_out w
                  ++ (if first_render g then [] else [cursor_up (total_lines g)])
                  ++ [CLEAR_LINE; bar] ++ rest.
Proof.
  intros Hinit Hdrawn Hplot.
  assert (bar_label (bar_graph g) = u "Accel") as Hlabel.
  { rewrite (drawn_bar _ _ Hdrawn). unfold DualGraph_init in Hinit.
    destruct (SineWaveGraph_init _ _ _) as [sine| |]; [|done..].
    by injection Hinit as <-. }
  apply plot_items in Hplot
    as (t & len & shoe & buf & rows & Et & Elen & _ & _ & _ & _ & ->).
  eexists _, _. split.
  - intros w0. unfold BarGraph_plot. rewrite Elen, Et, Hlabel.
    do 2 (erewrite bind_Ok by reflexivity). reflexivity.
  - cbn [w_out]. unfold plot_prints. rewrite <- !app_assoc. reflexivity.
Qed.

Lemma dual_graph_draws_the_bar_of_its_bar_graph_witness :
  exists bar rest,
    (forall w0, BarGraph_plot (bar_graph sample_drawn) 11.5 w0
                = (Ok tt, mkWorld (w_out w0 ++ [bar]) (w_chan w0) (w_intr w0)))
    /\ w_out (snd sample_replot)
       = w_out (snd sample_plot)
         ++ (if first_render sample_drawn then []
             else [cursor_up (total_lines sample_drawn)])
         ++ [CLEAR_LINE; bar] ++ rest.
Proof.
  apply (dual_graph_draws_the_bar_of_its_bar_graph 30 BAR_RANGE 40 7 (Int (-1), Int 1)
           sample_graph sample_drawn 11.5 0.75 true (snd sample_plot)
           (match fst sample_replot with Ok g => g | _ => sample_graph end)
           (snd sample_replot)).
  - by vm_compute.
  - apply (drawn_next sample_graph sample_graph 9.8 0 false (mkWorld [] [] None)
             sample_drawn (snd sample_plot)); [constructor | by vm_compute].
  - by vm_compute.
Defined.

(** ** A whole session *)

Section Session.
Variable env : nat -> reply.
Variable exn_text : exn -> str.
Variable libm_sin : float -> float.


Variables bw sw sh : Z.
Hypothesis Hbw : 0 <= bw < 2 ^ 63.
Hypothesis Hsw : 1 <= sw.
Hypothesis Hsh : 2 <= sh <= 2 ^ 63.


End Session.

